(** * Camera controllers and scene traversal of the glTF viewer

    Shallow embedding of [src/apps/gltf-viewer/utils/cameras.cpp]:
    the two camera controllers ([FirstPersonCameraController::update],
    [TrackballCameraController::update]) and the [drawScene] / [drawNode]
    lambdas of [ViewerApplication::run].

    Scalars are modelled as real numbers: the [float]/[double] arithmetic of
    glm is read as exact arithmetic, except for the one division the claims
    are about (the zoom branch divides by the length of the view vector),
    which is made explicit as a possibly failing operation.

    The zoom branch of [TrackballCameraController::update] is modelled a
    second time with the arithmetic the code runs ([tb_zoom_update32]):
    IEEE 754 binary32 with rounding to nearest even, gradual underflow,
    overflow to infinity and NaN, computed on integers so that it
    evaluates (no fused multiply-add contraction is assumed). *)

From Stdlib Require Import Reals Lra List ZArith Lia String Bool.
Import ListNotations.

Open Scope R_scope.
Open Scope bool_scope.

(** ** glm vectors and matrices *)

Record vec3 := Vec3 { vx : R; vy : R; vz : R }.
Record vec4 := Vec4 { qx : R; qy : R; qz : R; qw : R }.

(** [glm::mat4]: four columns. *)
Record mat4 := Mat4 { col0 : vec4; col1 : vec4; col2 : vec4; col3 : vec4 }.

Definition vadd (a b : vec3) : vec3 :=
  Vec3 (vx a + vx b) (vy a + vy b) (vz a + vz b).
Definition vsub (a b : vec3) : vec3 :=
  Vec3 (vx a - vx b) (vy a - vy b) (vz a - vz b).
Definition vscale (k : R) (a : vec3) : vec3 :=
  Vec3 (k * vx a) (k * vy a) (k * vz a).
Definition vzero : vec3 := Vec3 0 0 0.
Definition dot (a b : vec3) : R := vx a * vx b + vy a * vy b + vz a * vz b.
Definition cross (a b : vec3) : vec3 :=
  Vec3 (vy a * vz b - vz a * vy b)
       (vz a * vx b - vx a * vz b)
       (vx a * vy b - vy a * vx b).

(** [glm::length]. *)
Definition length (a : vec3) : R := sqrt (dot a a).

(** [glm::normalize]: [v * inversesqrt(dot(v, v))]. *)
Definition normalize (a : vec3) : vec3 := vscale (/ sqrt (dot a a)) a.

(** [vec4(v, w)] and [vec3(v4)]. *)
Definition to_vec4 (a : vec3) (w : R) : vec4 := Vec4 (vx a) (vy a) (vz a) w.
Definition xyz (a : vec4) : vec3 := Vec3 (qx a) (qy a) (qz a).

Definition v4add (a b : vec4) : vec4 :=
  Vec4 (qx a + qx b) (qy a + qy b) (qz a + qz b) (qw a + qw b).
Definition v4scale (k : R) (a : vec4) : vec4 :=
  Vec4 (k * qx a) (k * qy a) (k * qz a) (k * qw a).

(** [m * v] for a column-major matrix. *)
Definition mat_vec (m : mat4) (v : vec4) : vec4 :=
  v4add (v4add (v4scale (qx v) (col0 m)) (v4scale (qy v) (col1 m)))
        (v4add (v4scale (qz v) (col2 m)) (v4scale (qw v) (col3 m))).

(** [a * b]: column [j] of the product is [a * b[j]]. *)
Definition mat_mul (a b : mat4) : mat4 :=
  Mat4 (mat_vec a (col0 b)) (mat_vec a (col1 b))
       (mat_vec a (col2 b)) (mat_vec a (col3 b)).

(** [glm::mat4(1)]. *)
Definition mat_id : mat4 :=
  Mat4 (Vec4 1 0 0 0) (Vec4 0 1 0 0) (Vec4 0 0 1 0) (Vec4 0 0 0 1).

(** [glm::rotate(mat4(1), angle, v)], as written in glm's
    [matrix_transform.inl]: the axis is normalised and the Rodrigues matrix
    is built column by column. *)
Definition rotate (angle : R) (v : vec3) : mat4 :=
  let c := cos angle in
  let s := sin angle in
  let axis := normalize v in
  let temp := vscale (1 - c) axis in
  Mat4
    (Vec4 (c + vx temp * vx axis)
          (vx temp * vy axis + s * vz axis)
          (vx temp * vz axis - s * vy axis) 0)
    (Vec4 (vy temp * vx axis - s * vz axis)
          (c + vy temp * vy axis)
          (vy temp * vz axis + s * vx axis) 0)
    (Vec4 (vz temp * vx axis + s * vy axis)
          (vz temp * vy axis - s * vx axis)
          (c + vz temp * vz axis) 0)
    (Vec4 0 0 0 1).

(** [vec3(rotate(mat4(1), angle, axis) * vec4(v, 0))]. *)
Definition rotate_dir (angle : R) (axis v : vec3) : vec3 :=
  xyz (mat_vec (rotate angle axis) (to_vec4 v 0)).

(** [glm::lookAt] (right-handed). *)
Definition lookAt (eye center up : vec3) : mat4 :=
  let f := normalize (vsub center eye) in
  let s := normalize (cross f up) in
  let u := cross s f in
  Mat4 (Vec4 (vx s) (vx u) (- vx f) 0)
       (Vec4 (vy s) (vy u) (- vy f) 0)
       (Vec4 (vz s) (vz u) (- vz f) 0)
       (Vec4 (- dot s eye) (- dot u eye) (dot f eye) 1).

(** ** The camera *)

(** Modelled from the spec: the [Camera] class (declared in
    [utils/cameras.hpp], not part of the sources) is the value
    [eye, center, up] with [front], [left] derived on demand, §3 and §4.1. *)
Record Camera := mkCamera { eye : vec3; center : vec3; up : vec3 }.

(** Modelled from the spec: [Camera::front()], [front = normalize(center - eye)]. *)
Definition front (c : Camera) : vec3 := normalize (vsub (center c) (eye c)).

(** Modelled from the spec: [Camera::left()], [left = normalize(cross(up, front))]. *)
Definition left (c : Camera) : vec3 := normalize (cross (up c) (front c)).

(** Modelled from the spec: [Camera::getViewMatrix()], [lookAt(eye, center, up)]. *)
Definition getViewMatrix (c : Camera) : mat4 := lookAt (eye c) (center c) (up c).

(** Modelled from the spec: [Camera::moveLocal]: eye and center are both
    translated by [truckLeft*left + pedestalUp*up + dollyIn*front]. *)
Definition moveLocal (c : Camera) (truckLeft pedestalUp dollyIn : R) : Camera :=
  let t := vadd (vadd (vscale truckLeft (left c)) (vscale pedestalUp (up c)))
                (vscale dollyIn (front c)) in
  mkCamera (vadd (eye c) t) (vadd (center c) t) (up c).

(** Modelled from the spec: [Camera::rotateLocal]: the view direction and the
    up vector are rotated about the camera's own front (roll), left (tilt)
    and up (pan) axes; the eye is fixed and the center recomputed. *)
Definition rotateLocal (c : Camera) (rollRight tiltDown panLeft : R) : Camera :=
  let r v := rotate_dir panLeft (up c)
               (rotate_dir tiltDown (left c) (rotate_dir rollRight (front c) v)) in
  mkCamera (eye c) (vadd (eye c) (r (vsub (center c) (eye c)))) (r (up c)).

(** Modelled from the spec: [Camera::rotateWorld]: the view direction is
    rotated about an external axis, the eye is fixed. *)
Definition rotateWorld (c : Camera) (angle : R) (axis : vec3) : Camera :=
  mkCamera (eye c)
           (vadd (eye c) (rotate_dir angle axis (vsub (center c) (eye c))))
           (up c).

(** ** Input devices *)

Inductive MouseButton := MOUSE_BUTTON_LEFT | MOUSE_BUTTON_MIDDLE.

Inductive Key :=
  KEY_W | KEY_A | KEY_S | KEY_D | KEY_UP | KEY_DOWN | KEY_Q | KEY_E
| KEY_LEFT_SHIFT | KEY_LEFT_CONTROL.

(** One frame's snapshot of the window: [glfwGetMouseButton],
    [glfwGetCursorPos] and [glfwGetKey] are point-in-time queries, and no
    event is polled inside [update], so every query of one call reads the
    same snapshot. *)
Record Input := mkInput {
  getMouseButton : MouseButton -> bool;
  getCursorPos : R * R;
  getKey : Key -> bool
}.

(** ** Controllers *)

(** The members of a controller: the camera, [m_LastCursorPosition], the
    button flag ([m_LeftButtonPressed] or [m_MiddleButtonPressed]),
    [m_fSpeed] and [m_worldUpAxis]. *)
Record Controller := mkController {
  m_camera : Camera;
  m_LastCursorPosition : R * R;
  m_ButtonPressed : bool;
  m_fSpeed : R;
  m_worldUpAxis : vec3
}.

Definition with_camera (st : Controller) (c : Camera) : Controller :=
  mkController c (m_LastCursorPosition st) (m_ButtonPressed st)
               (m_fSpeed st) (m_worldUpAxis st).

(** [x != 0] for a [float] converted to [bool]. *)
Definition nonzero (x : R) : bool := if Req_EM_T x 0 then false else true.

(** The press/release edge detection and the [cursorDelta] lambda, shared
    by both controllers (they differ by the button they watch). Returns the
    new interaction state and the cursor delta. *)
Definition pollCursor (button : MouseButton) (st : Controller) (inp : Input)
  : Controller * (R * R) :=
  let held := getMouseButton inp button in
  let '(pressed, last) :=
    if held && negb (m_ButtonPressed st) then (true, getCursorPos inp)
    else if negb held && m_ButtonPressed st then (false, m_LastCursorPosition st)
    else (m_ButtonPressed st, m_LastCursorPosition st) in
  if pressed then
    let cur := getCursorPos inp in
    (mkController (m_camera st) cur true (m_fSpeed st) (m_worldUpAxis st),
     (fst cur - fst last, snd cur - snd last))
  else
    (mkController (m_camera st) last false (m_fSpeed st) (m_worldUpAxis st),
     (0, 0)).

(** [x += d] / [x -= d] guarded by a key. *)
Definition incr_if (held : bool) (x d : R) : R := if held then x + d else x.
Definition decr_if (held : bool) (x d : R) : R := if held then x - d else x.

(** The six quantities accumulated by [FirstPersonCameraController::update]:
    [(truckLeft, pedestalUp, dollyIn, rollRightAngle, panLeftAngle,
    tiltDownAngle)]. *)
Definition fpQuantities (st : Controller) (inp : Input) (cursorDelta : R * R)
    (elapsedTime : R) : R * R * R * R * R * R :=
  let k := getKey inp in
  let step := m_fSpeed st * elapsedTime in
  let dollyIn := incr_if (k KEY_W) 0 step in
  let truckLeft := incr_if (k KEY_A) 0 step in
  let pedestalUp := incr_if (k KEY_UP) 0 step in
  let dollyIn := decr_if (k KEY_S) dollyIn step in
  let truckLeft := decr_if (k KEY_D) truckLeft step in
  let pedestalUp := decr_if (k KEY_DOWN) pedestalUp step in
  let rollRightAngle := decr_if (k KEY_Q) 0 (1 / 1000) in
  let rollRightAngle := incr_if (k KEY_E) rollRightAngle (1 / 1000) in
  let panLeftAngle := - (1 / 100) * fst cursorDelta in
  let tiltDownAngle := (1 / 100) * snd cursorDelta in
  (truckLeft, pedestalUp, dollyIn, rollRightAngle, panLeftAngle, tiltDownAngle).

(** [FirstPersonCameraController::update(elapsedTime)]. *)
Definition fp_update (st : Controller) (inp : Input) (elapsedTime : R)
  : bool * Controller :=
  let '(st1, cursorDelta) := pollCursor MOUSE_BUTTON_LEFT st inp in
  let '(truckLeft, pedestalUp, dollyIn, rollRightAngle, panLeftAngle,
        tiltDownAngle) := fpQuantities st1 inp cursorDelta elapsedTime in
  let hasMoved := nonzero truckLeft || nonzero pedestalUp || nonzero dollyIn
                  || nonzero panLeftAngle || nonzero tiltDownAngle
                  || nonzero rollRightAngle in
  if negb hasMoved then (false, st1)
  else
    let c1 := moveLocal (m_camera st1) truckLeft pedestalUp dollyIn in
    let c2 := rotateLocal c1 rollRightAngle tiltDownAngle 0 in
    let c3 := rotateWorld c2 panLeftAngle (m_worldUpAxis st1) in
    (true, with_camera st1 c3).

(** [viewVector / viewLength]: a component-wise division, whose result is
    not finite (NaN) when [viewLength] is zero; that case is [None]. *)
Definition vdiv (v : vec3) (l : R) : option vec3 :=
  if Req_EM_T l 0 then None
  else Some (Vec3 (vx v / l) (vy v / l) (vz v / l)).

(** [1e-4f]. *)
Definition zoomEpsilon : R := 1 / 10000.

(** [glm::min(x, y)]: [(y < x) ? y : x]. *)
Definition glm_min (x y : R) : R := if Rlt_dec y x then y else x.

(** The zoom branch (CTRL held) once [horizontalMovement] is known to be
    non-zero: the new camera, or [None] when the division by [viewLength]
    does not produce finite numbers. *)
Definition zoomCamera (c : Camera) (worldUp : vec3) (horizontalMovement : R)
  : option Camera :=
  let viewVector := vsub (center c) (eye c) in
  let viewLength := length viewVector in
  let horizontalMovement :=
    if Rlt_dec 0 horizontalMovement
    then glm_min horizontalMovement (viewLength - zoomEpsilon)
    else horizontalMovement in
  match vdiv viewVector viewLength with
  | None => None
  | Some frontv =>
      let translationVector := vscale horizontalMovement frontv in
      let newEye := vadd (eye c) translationVector in
      Some (mkCamera newEye (center c) worldUp)
  end.

(** The rotate branch (no modifier key). *)
Definition orbitCamera (c : Camera) (worldUp : vec3)
    (horizontalMovement verticalMovement : R) : Camera :=
  let depthAxis := vsub (eye c) (center c) in
  let horizontalAxis := left c in
  let rotatedDepthAxis := rotate_dir verticalMovement horizontalAxis depthAxis in
  let result := rotate_dir (- horizontalMovement) worldUp rotatedDepthAxis in
  let newEye := vadd (center c) result in
  mkCamera newEye (center c) worldUp.

(** [TrackballCameraController::update(elapsedTime)]; [None] when the
    zoom branch produces non-finite coordinates. *)
Definition tb_update (st : Controller) (inp : Input) (elapsedTime : R)
  : option (bool * Controller) :=
  let '(st1, cursorDelta) := pollCursor MOUSE_BUTTON_MIDDLE st inp in
  let pedestalUp := 0 in
  let dollyIn := 0 in
  let horizontalMovement := (1 / 100) * fst cursorDelta in
  let verticalMovement := (1 / 100) * snd cursorDelta in
  let hasMoved := nonzero horizontalMovement || nonzero verticalMovement in
  if negb hasMoved then Some (false, st1)
  else if getKey inp KEY_LEFT_SHIFT then
    Some (true, with_camera st1
                  (moveLocal (m_camera st1) horizontalMovement pedestalUp dollyIn))
  else if getKey inp KEY_LEFT_CONTROL then
    if negb (nonzero horizontalMovement) then Some (false, st1)
    else
      match zoomCamera (m_camera st1) (m_worldUpAxis st1) horizontalMovement with
      | None => None
      | Some c => Some (true, with_camera st1 c)
      end
  else
    Some (true, with_camera st1
                  (orbitCamera (m_camera st1) (m_worldUpAxis st1)
                               horizontalMovement verticalMovement)).

(** ** More of glm: entries, transpose, inverse, translate, scale, quaternions *)

Definition v4get (v : vec4) (r : nat) : R :=
  match r with 0 => qx v | 1 => qy v | 2 => qz v | _ => qw v end.

(** [m[c][r]]: column [c], row [r]. *)
Definition mget (m : mat4) (c r : nat) : R :=
  v4get (match c with 0 => col0 m | 1 => col1 m | 2 => col2 m | _ => col3 m end) r.

Definition mbuild (f : nat -> nat -> R) : mat4 :=
  Mat4 (Vec4 (f 0%nat 0%nat) (f 0%nat 1%nat) (f 0%nat 2%nat) (f 0%nat 3%nat)) (Vec4 (f 1%nat 0%nat) (f 1%nat 1%nat) (f 1%nat 2%nat) (f 1%nat 3%nat))
       (Vec4 (f 2%nat 0%nat) (f 2%nat 1%nat) (f 2%nat 2%nat) (f 2%nat 3%nat)) (Vec4 (f 3%nat 0%nat) (f 3%nat 1%nat) (f 3%nat 2%nat) (f 3%nat 3%nat)).

(** [glm::transpose]. *)
Definition transpose (m : mat4) : mat4 := mbuild (fun c r => mget m r c).

Definition skip (k n : nat) : nat := if Nat.ltb n k then n else S n.

(** The 3x3 minor of [m] without column [c] and row [r]. *)
Definition minor3 (m : mat4) (c r : nat) : R :=
  let g a b := mget m (skip c a) (skip r b) in
  g 0%nat 0%nat * (g 1%nat 1%nat * g 2%nat 2%nat - g 2%nat 1%nat * g 1%nat 2%nat)
  - g 1%nat 0%nat * (g 0%nat 1%nat * g 2%nat 2%nat - g 2%nat 1%nat * g 0%nat 2%nat)
  + g 2%nat 0%nat * (g 0%nat 1%nat * g 1%nat 2%nat - g 1%nat 1%nat * g 0%nat 2%nat).

Definition cofactor (m : mat4) (c r : nat) : R := pow (-1) (c + r)%nat * minor3 m c r.

Definition det4 (m : mat4) : R :=
  mget m 0%nat 0%nat * cofactor m 0%nat 0%nat + mget m 1%nat 0%nat * cofactor m 1%nat 0%nat
  + mget m 2%nat 0%nat * cofactor m 2%nat 0%nat + mget m 3%nat 0%nat * cofactor m 3%nat 0%nat.

(** [glm::inverse]: the adjugate divided by the determinant. *)
Definition inverse (m : mat4) : mat4 :=
  mbuild (fun c r => cofactor m r c / det4 m).

(** [glm::translate(mat4(1), t)] and [glm::scale(mat4(1), s)]. *)
Definition translate (t : vec3) : mat4 :=
  Mat4 (Vec4 1 0 0 0) (Vec4 0 1 0 0) (Vec4 0 0 1 0) (Vec4 (vx t) (vy t) (vz t) 1).
Definition scale (s : vec3) : mat4 :=
  Mat4 (Vec4 (vx s) 0 0 0) (Vec4 0 (vy s) 0 0) (Vec4 0 0 (vz s) 0) (Vec4 0 0 0 1).

(** [glm::mat4_cast] of the quaternion [(x, y, z, w)]. *)
Definition mat4_cast (q : vec4) : mat4 :=
  let x := qx q in let y := qy q in let z := qz q in let w := qw q in
  Mat4 (Vec4 (1 - 2 * (y * y + z * z)) (2 * (x * y + w * z)) (2 * (x * z - w * y)) 0)
       (Vec4 (2 * (x * y - w * z)) (1 - 2 * (x * x + z * z)) (2 * (y * z + w * x)) 0)
       (Vec4 (2 * (x * z + w * y)) (2 * (y * z - w * x)) (1 - 2 * (x * x + y * y)) 0)
       (Vec4 0 0 0 1).

(** ** The glTF model consumed by [drawScene] (tinygltf's data) *)

Open Scope Z_scope.

Record Accessor := mkAccessor {
  acc_bufferView : Z;
  acc_byteOffset : Z;     (* size_t *)
  acc_componentType : Z;
  acc_type : Z;
  acc_count : Z           (* size_t *)
}.

Record BufferView := mkBufferView {
  bv_buffer : Z;
  bv_byteOffset : Z;      (* size_t *)
  bv_byteStride : Z;
  bv_target : Z
}.

(** [attributes] is a [std::map<std::string, int>], listed in the map's
    (key) order, so that its head is [*begin(attributes)]. *)
Record Primitive := mkPrimitive {
  attributes : list (String.string * Z);
  indices : Z;            (* -1: no index accessor *)
  mode : Z
}.

Record Mesh := mkMesh { primitives : list Primitive }.

(** A node: an explicit matrix or a translation / rotation / scale triple
    (tinygltf's defaults: no translation, the identity quaternion, unit
    scale), a mesh index ([-1]: none) and the child indices. *)
Record Node := mkNode {
  n_matrix : option mat4;
  n_translation : vec3;
  n_rotation : vec4;
  n_scale : vec3;
  n_mesh : Z;
  n_children : list Z
}.

Record Model := mkModel {
  accessors : list Accessor;
  bufferViews : list BufferView;
  meshes : list Mesh;
  nodes : list Node;
  scenes : list (list Z);  (* the root node indices of each scene *)
  defaultScene : Z
}.

(** [v[i]] for a [std::vector] indexed by an [int]: a negative index, or
    one past the end, is undefined behaviour, modelled as [None]. *)
Definition at_ {A} (l : list A) (i : Z) : option A :=
  if i <? 0 then None else nth_error l (Z.to_nat i).

Definition obind {A B} (o : option A) (f : A -> option B) : option B :=
  match o with Some a => f a | None => None end.
Notation "x <- c ;; k" := (obind c (fun x => k))
  (at level 61, c at next level, right associativity).

(** Modelled from the spec: [getLocalToWorldMatrix(node, parentMatrix)]
    (defined in [utils/gltf.cpp], not part of the sources),
    [parentMatrix * localTransform] where the local transform is the node's
    explicit matrix or [T * R * S], §4.4. *)
Definition localTransform (n : Node) : mat4 :=
  match n_matrix n with
  | Some m => m
  | None => mat_mul (mat_mul (translate (n_translation n)) (mat4_cast (n_rotation n)))
                    (scale (n_scale n))
  end.

Definition getLocalToWorldMatrix (n : Node) (parentMatrix : mat4) : mat4 :=
  mat_mul parentMatrix (localTransform n).

(** ** Draw submission *)

(** The OpenGL calls issued by [drawScene], in order. The viewport and
    clear calls at the start of the lambda are left out. *)
Inductive GLCall :=
| UniformMatrix4fv (location : Z) (m : mat4)
| Uniform3f (location : Z) (v : vec3)
| BindVertexArray (vao : Z)
| DrawElements (mode count type byteOffset : Z)
| DrawArrays (mode first count : Z).

Record VaoRange := mkVaoRange { vr_begin : Z; vr_count : Z }.

(** One call of [drawNode]: the node index, its [modelMatrix] and the calls
    it issues before recursing into its children. *)
Record Visit := mkVisit {
  visit_node : Z;
  visit_modelMatrix : mat4;
  visit_calls : list GLCall
}.

(** [GLsizei(x)]: conversion of a [size_t] to a 32-bit signed integer. *)
Definition GLsizei (x : Z) : Z :=
  let m := x mod 2 ^ 32 in if m >=? 2 ^ 31 then m - 2 ^ 32 else m.

(** [size_t] addition. *)
Definition size_t_add (a b : Z) : Z := (a + b) mod 2 ^ 64.

(** Run [g] on each index of a list, in order, concatenating the visits
    (the [for] loops over [node.children] and over the scene's roots). *)
Fixpoint forEachNode (g : Z -> option (list Visit)) (l : list Z)
  : option (list Visit) :=
  match l with
  | [] => Some []
  | i :: l' => v <- g i ;; vs <- forEachNode g l' ;; Some (v ++ vs)
  end.

Section Draw.

Variable model : Model.
Variable vertexArrayObjects : list Z.
Variable meshToVertexArrays : list VaoRange.
Variable projMatrix : mat4.
Variables modelViewProjMatrixLocation modelViewMatrixLocation
  normalMatrixLocation lightDirectionLocation lightIntensityLocation : Z.

(** The draw call of one primitive (the body of the primitive loop after
    [glBindVertexArray]). *)
Definition drawPrimitive (primitive : Primitive) : option GLCall :=
  if indices primitive >=? 0 then
    accessor <- at_ (accessors model) (indices primitive) ;;
    bufferView <- at_ (bufferViews model) (acc_bufferView accessor) ;;
    let byteOffset := size_t_add (acc_byteOffset accessor) (bv_byteOffset bufferView) in
    Some (DrawElements (mode primitive) (GLsizei (acc_count accessor))
                       (acc_componentType accessor) byteOffset)
  else
    (* Take first accessor to get the count *)
    match attributes primitive with
    | [] => None    (* [*begin(m)] of an empty map *)
    | (_, accessorIdx) :: _ =>
        accessor <- at_ (accessors model) accessorIdx ;;
        Some (DrawArrays (mode primitive) 0 (GLsizei (acc_count accessor)))
    end.

(** [for (pIdx = 0; pIdx < mesh.primitives.size(); ++pIdx)]. *)
Fixpoint drawPrimitives (vaoRange : VaoRange) (prims : list Primitive) (pIdx : Z)
  : option (list GLCall) :=
  match prims with
  | [] => Some []
  | primitive :: prims' =>
      vao <- at_ vertexArrayObjects (vr_begin vaoRange + pIdx) ;;
      call <- drawPrimitive primitive ;;
      rest <- drawPrimitives vaoRange prims' (pIdx + 1) ;;
      Some (BindVertexArray vao :: call :: rest)
  end.

(** The uniform writes and draw calls of one node ([if (node.mesh >= 0)]). *)
Definition drawMesh (viewMatrix : mat4) (node : Node) (modelMatrix : mat4)
  : option (list GLCall) :=
  if n_mesh node >=? 0 then
    let mvMatrix := mat_mul viewMatrix modelMatrix in
    let mvpMatrix := mat_mul projMatrix mvMatrix in
    let normalMatrix := transpose (inverse mvMatrix) in
    mesh <- at_ (meshes model) (n_mesh node) ;;
    vaoRange <- at_ meshToVertexArrays (n_mesh node) ;;
    calls <- drawPrimitives vaoRange (primitives mesh) 0 ;;
    Some ([UniformMatrix4fv modelViewProjMatrixLocation mvpMatrix;
           UniformMatrix4fv modelViewMatrixLocation mvMatrix;
           UniformMatrix4fv normalMatrixLocation normalMatrix] ++ calls)
  else Some [].

(** The recursive [drawNode] lambda. The C++ recursion has no bound; here
    it is cut at depth [fuel], [None] meaning that the C++ code recurses
    deeper (forever on a cyclic graph) or indexes out of range. *)
Fixpoint drawNode (viewMatrix : mat4) (fuel : nat) (nodeIdx : Z)
    (parentMatrix : mat4) : option (list Visit) :=
  match fuel with
  | O => None
  | S fuel' =>
      node <- at_ (nodes model) nodeIdx ;;
      let modelMatrix := getLocalToWorldMatrix node parentMatrix in
      calls <- drawMesh viewMatrix node modelMatrix ;;
      children <- forEachNode (fun childNodeIdx => drawNode viewMatrix fuel' childNodeIdx modelMatrix)
                              (n_children node) ;;
      Some (mkVisit nodeIdx modelMatrix calls :: children)
  end.

(** The nodes drawn for the scene referenced by the glTF file. *)
Definition drawSceneVisits (viewMatrix : mat4) (fuel : nat) : option (list Visit) :=
  if defaultScene model >=? 0 then
    roots <- at_ (scenes model) (defaultScene model) ;;
    forEachNode (fun nodeIdx => drawNode viewMatrix fuel nodeIdx mat_id) roots
  else Some [].

(** The light uniforms sent at the start of [drawScene]. *)
Definition lightUniforms (viewMatrix : mat4) (lightFromCamera : bool)
    (lightDirection lightIntensity : vec3) : list GLCall :=
  (if lightDirectionLocation >=? 0 then
     if lightFromCamera then [Uniform3f lightDirectionLocation (Vec3 0 0 1)]
     else
       let viewLightDirection :=
         normalize (xyz (mat_vec viewMatrix (to_vec4 lightDirection 0))) in
       [Uniform3f lightDirectionLocation viewLightDirection]
   else [])
  ++ (if lightIntensityLocation >=? 0 then [Uniform3f lightIntensityLocation lightIntensity]
      else []).

(** The [drawScene] lambda. *)
Definition drawScene (fuel : nat) (camera : Camera) (lightFromCamera : bool)
    (lightDirection lightIntensity : vec3) : option (list GLCall) :=
  let viewMatrix := getViewMatrix camera in
  visits <- drawSceneVisits viewMatrix fuel ;;
  Some (lightUniforms viewMatrix lightFromCamera lightDirection lightIntensity
        ++ flat_map visit_calls visits ++ [BindVertexArray 0]).

End Draw.

(** ** Paths of the scene graph *)

(** The spec's reading of the traversal, §4.4: nodes are visited depth
    first from each root, children in listed order, one visit per path from
    a root; the world transform of a path is the product of the local
    transforms along it. Paths are written leaf first: [x :: y :: ... :: r]
    is the path from the root [r] down to [x]. *)
Section Paths.

Variable model : Model.

Definition localOf (i : Z) : mat4 :=
  match at_ (nodes model) i with Some n => localTransform n | None => mat_id end.

(** Modelled from the spec: the world transform of the path [rp] (read
    from the leaf up), [I * L(r) * ... * L(x)] multiplied from the root
    down. *)
Fixpoint pathWorld (rp : list Z) : mat4 :=
  match rp with
  | [] => mat_id
  | i :: rest => mat_mul (pathWorld rest) (localOf i)
  end.

(** Modelled from the spec: the paths below [idx] (whose own path above
    is [anc]), in depth-first preorder with children in listed order, down
    to depth [fuel]. *)
Fixpoint nodePaths (fuel : nat) (idx : Z) (anc : list Z) : list (list Z) :=
  match fuel with
  | O => []
  | S fuel' =>
      match at_ (nodes model) idx with
      | None => []
      | Some n =>
          (idx :: anc)
            :: List.concat (map (fun c => nodePaths fuel' c (idx :: anc)) (n_children n))
      end
  end.

Definition scenePaths (fuel : nat) (roots : list Z) : list (list Z) :=
  List.concat (map (fun r => nodePaths fuel r []) roots).

(** [InTree idx anc rp]: [rp] is a path that goes down from [idx] (below
    [anc]) through child links of existing nodes. A node [x] is reachable
    from the roots when [InTree r [] rp] for a root [r] and [hd rp = x]. *)
Inductive InTree : Z -> list Z -> list Z -> Prop :=
| in_tree_here idx anc n :
    at_ (nodes model) idx = Some n -> InTree idx anc (idx :: anc)
| in_tree_child idx anc n c rp :
    at_ (nodes model) idx = Some n -> In c (n_children n) ->
    InTree c (idx :: anc) rp -> InTree idx anc rp.

(** The same paths read from the leaf up. *)
Inductive RootPath (roots : list Z) : list Z -> Prop :=
| root_path_root r : In r roots -> RootPath roots [r]
| root_path_child x y n rest :
    RootPath roots (y :: rest) -> at_ (nodes model) y = Some n ->
    In x (n_children n) -> RootPath roots (x :: y :: rest).

(** The node graph is a forest below [roots]: no index is listed twice
    among the roots and all the child lists (each node has at most one
    parent, and a root has none). *)
Definition forest (roots : list Z) : Prop :=
  NoDup (roots ++ List.concat (map n_children (nodes model))).

(** A path with the node it ends at and its world transform. *)
Definition pathKey (rp : list Z) : Z * mat4 := (hd 0%Z rp, pathWorld rp).

End Paths.

(** A visit with the node it draws and its [modelMatrix]. *)
Definition visitKey (v : Visit) : Z * mat4 := (visit_node v, visit_modelMatrix v).

(** ** Frames *)

Open Scope R_scope.

(** Successive frames of the render loop driving the trackball controller:
    each frame calls [update] once; the controller after each frame is
    collected. *)
Fixpoint tb_run (st : Controller) (frames : list (Input * R))
  : option (list Controller) :=
  match frames with
  | [] => Some []
  | (inp, elapsedTime) :: frames' =>
      r <- tb_update st inp elapsedTime ;;
      rest <- tb_run (snd r) frames' ;;
      Some (snd r :: rest)
  end.


(** ** Sample states and inputs *)

(** A camera five units in front of the origin, looking at it. *)
Definition sampleCamera : Camera := mkCamera (Vec3 0 0 5) (Vec3 0 0 0) (Vec3 0 1 0).

(** A camera whose eye is its center: the default camera for a scene whose
    bounding box is a single point ([diag = 0]), or a [--lookat] argument. *)
Definition degenerateCamera : Camera :=
  mkCamera (Vec3 0 0 0) (Vec3 0 0 0) (Vec3 0 1 0).

(** A controller holding [c], with its button already held and the last
    cursor position at the origin. *)
Definition sampleController (c : Camera) : Controller :=
  mkController c (0, 0) true 1 (Vec3 0 1 0).

(** Both mouse buttons held, the cursor at [cursor], and only the given
    modifier keys held. *)
Definition modifierInput (cursor : R * R) (shift ctrl : bool) : Input :=
  mkInput (fun _ => true) cursor
    (fun k => match k with
              | KEY_LEFT_SHIFT => shift
              | KEY_LEFT_CONTROL => ctrl
              | _ => false
              end).

(** A model with one mesh of two primitives: an indexed one (36 unsigned
    short indices at byte 8 of a buffer view starting at byte 100) and a
    non-indexed one (24 positions). *)
Definition indexedPrimitive : Primitive :=
  mkPrimitive [("POSITION"%string, 1%Z)] 0 4.
Definition arrayPrimitive : Primitive :=
  mkPrimitive [("POSITION"%string, 1%Z)] (-1) 4.
Definition sampleModel : Model :=
  mkModel [mkAccessor 0 8 5123 65 36; mkAccessor 1 0 5126 3 24]
          [mkBufferView 0 100 0 34963; mkBufferView 0 0 12 34962]
          [mkMesh [indexedPrimitive; arrayPrimitive]] [] [] (-1).

(** A node without mesh, with the identity as its [matrix], and the given
    children. *)
Definition groupNode (children : list Z) : Node :=
  mkNode (Some mat_id) (Vec3 0 0 0) (Vec4 0 0 0 1) (Vec3 1 1 1) (-1) children.

(** A scene graph that is not a tree: roots 0 and 2 both list node 1 as
    a child. *)
Definition dagModel : Model :=
  mkModel [] [] [] [groupNode [1%Z]; groupNode []; groupNode [1%Z]] [[0; 2]%Z] 0.

(** A node without mesh, placed by a translation (no rotation, unit
    scale). *)
Definition translatedNode (t : vec3) (children : list Z) : Node :=
  mkNode None t (Vec4 0 0 0 1) (Vec3 1 1 1) (-1) children.

(** A chain of three nodes, each translated by one unit along one axis
    relative to its parent. *)
Definition chainModel : Model :=
  mkModel [] [] []
    [translatedNode (Vec3 1 0 0) [1%Z]; translatedNode (Vec3 0 1 0) [2%Z];
     translatedNode (Vec3 0 0 1) []]
    [[0%Z]] 0.

(** ** GPU resources created before the render loop *)

(** The OpenGL calls of [createBufferObjects] and
    [createVertexArrayObjects], in order. *)
Inductive SetupCall :=
| GenBuffers (n : Z)
| BindBuffer (target buffer : Z)
| BufferStorage (target size : Z) (data : list Byte.byte) (flags : Z)
| GenVertexArrays (n : Z)
| BindVAO (vao : Z)
| EnableVertexAttribArray (index : Z)
| VertexAttribPointer (index size type normalized stride pointer : Z).

Definition GL_ARRAY_BUFFER : Z := 34962.
Definition GL_ELEMENT_ARRAY_BUFFER : Z := 34963.
Definition GL_FALSE : Z := 0.

(** The OpenGL side: the next object name the driver hands out from
    [glGen*] (a driver that allocates names consecutively) and the calls
    issued so far. *)
Record GLState := mkGLState { gl_next : Z; gl_log : list SetupCall }.

Definition emit (c : SetupCall) (s : GLState) : GLState :=
  mkGLState (gl_next s) (gl_log s ++ [c]).

(** The [n] names written by [glGen*(n, ptr)]. *)
Definition genNames (n : nat) (s : GLState) : list Z * GLState :=
  (map (fun i => (gl_next s + Z.of_nat i)%Z) (seq 0 n),
   mkGLState (gl_next s + Z.of_nat n) (gl_log s)).

(** [model.buffers[i].data] of each buffer (tinygltf's [Buffer]). *)
Definition Buffer := list Byte.byte.

(** The [for (bufferIdx ...)] loop of [createBufferObjects]. *)
Fixpoint storeBuffers (bufferObjects : list Z) (buffers : list Buffer) (s : GLState)
  : GLState :=
  match bufferObjects, buffers with
  | bo :: bos, buf :: bufs =>
      storeBuffers bos bufs
        (emit (BufferStorage GL_ARRAY_BUFFER (Z.of_nat (List.length buf)) buf 0)
              (emit (BindBuffer GL_ARRAY_BUFFER bo) s))
  | _, _ => s
  end.

(** [ViewerApplication::createBufferObjects]. *)
Definition createBufferObjects (buffers : list Buffer) (s : GLState) : list Z * GLState :=
  let n := List.length buffers in
  let '(bufferObjects, s1) := genNames n (emit (GenBuffers (GLsizei (Z.of_nat n))) s) in
  (bufferObjects,
   emit (BindBuffer GL_ARRAY_BUFFER 0) (storeBuffers bufferObjects buffers s1)).

(** [std::map<std::string, GLuint> vertex_attributes], in the map's key
    order. *)
Definition vertex_attributes : list (String.string * Z) :=
  [("NORMAL"%string, 1%Z); ("POSITION"%string, 0%Z); ("TEXCOORD_0"%string, 2%Z)].

(** [primitive.attributes.find(key)] on the [std::map] (keys are unique). *)
Fixpoint findAttribute (key : String.string) (attrs : list (String.string * Z))
  : option Z :=
  match attrs with
  | [] => None
  | (k, v) :: rest => if String.eqb k key then Some v else findAttribute key rest
  end.

(** Whether the primitive has the attribute named by an entry of
    [vertex_attributes]. *)
Definition hasAttribute (prim : Primitive) (a : String.string * Z) : bool :=
  let '(name, _) := a in
  match findAttribute name (attributes prim) with Some _ => true | None => false end.

Section Setup.

Variable model : Model.
Variable bufferObjects : list Z.
(** Whether the program is built with [NDEBUG] ([assert] does nothing);
    otherwise a failed [assert] aborts, modelled as [None]. *)
Variable NDEBUG : bool.

Definition assert_ (b : bool) : option unit :=
  if NDEBUG then Some tt else if b then Some tt else None.

(** The body of the [for (vertex_attribute : vertex_attributes)] loop. *)
Definition setupAttribute (primitive : Primitive) (vertex_attribute : String.string * Z)
    (s : GLState) : option GLState :=
  let '(name, location) := vertex_attribute in
  match findAttribute name (attributes primitive) with
  | None => Some s
  | Some accessorIdx =>
      accessor <- at_ (accessors model) accessorIdx ;;
      bufferView <- at_ (bufferViews model) (acc_bufferView accessor) ;;
      let bufferIdx := bv_buffer bufferView in
      let s1 := emit (EnableVertexAttribArray location) s in
      _ <- assert_ (GL_ARRAY_BUFFER =? bv_target bufferView)%Z ;;
      bo <- at_ bufferObjects bufferIdx ;;
      let s2 := emit (BindBuffer GL_ARRAY_BUFFER bo) s1 in
      let byteOffset := size_t_add (bv_byteOffset bufferView) (acc_byteOffset accessor) in
      Some (emit (VertexAttribPointer location (acc_type accessor)
                    (acc_componentType accessor) GL_FALSE
                    (GLsizei (bv_byteStride bufferView)) byteOffset) s2)
  end.

Fixpoint setupAttributes (primitive : Primitive) (attrs : list (String.string * Z))
    (s : GLState) : option GLState :=
  match attrs with
  | [] => Some s
  | a :: rest => s1 <- setupAttribute primitive a s ;; setupAttributes primitive rest s1
  end.

(** The body of the primitive loop: bind the primitive's VAO, set up its
    attributes, then its index buffer if it has one. *)
Definition setupPrimitive (vao : Z) (primitive : Primitive) (s : GLState)
  : option GLState :=
  s1 <- setupAttributes primitive vertex_attributes (emit (BindVAO vao) s) ;;
  if (indices primitive >=? 0)%Z then
    accessor <- at_ (accessors model) (indices primitive) ;;
    bufferView <- at_ (bufferViews model) (acc_bufferView accessor) ;;
    _ <- assert_ (GL_ELEMENT_ARRAY_BUFFER =? bv_target bufferView)%Z ;;
    bo <- at_ bufferObjects (bv_buffer bufferView) ;;
    Some (emit (BindBuffer GL_ELEMENT_ARRAY_BUFFER bo) s1)
  else Some s1.

(** [for (pIdx = 0; pIdx < mesh.primitives.size(); ++pIdx)], reading
    [vertexArrayObjects[vaoOffset + pIdx]]. *)
Fixpoint setupPrimitives (vertexArrayObjects : list Z) (vaoOffset : Z)
    (prims : list Primitive) (pIdx : Z) (s : GLState) : option GLState :=
  match prims with
  | [] => Some s
  | primitive :: rest =>
      vao <- at_ vertexArrayObjects (vaoOffset + pIdx) ;;
      s1 <- setupPrimitive vao primitive s ;;
      setupPrimitives vertexArrayObjects vaoOffset rest (pIdx + 1) s1
  end.

(** The [for (mesh : model.meshes)] loop. [resize] appends zeros and
    [glGenVertexArrays] overwrites them with the new names; its pointer
    argument [&vertexArrayObjects[vaoOffset]] reads one past the end, which
    is undefined, when the mesh has no primitive. *)
Fixpoint setupMeshes (meshes : list Mesh) (vertexArrayObjects : list Z)
    (meshIndexToVaoRange : list VaoRange) (s : GLState)
  : option (list Z * list VaoRange * GLState) :=
  match meshes with
  | [] => Some (vertexArrayObjects, meshIndexToVaoRange, s)
  | mesh :: rest =>
      let vaoOffset := List.length vertexArrayObjects in
      let n := List.length (primitives mesh) in
      let ranges := meshIndexToVaoRange
                      ++ [mkVaoRange (GLsizei (Z.of_nat vaoOffset)) (GLsizei (Z.of_nat n))] in
      _ <- at_ (vertexArrayObjects ++ repeat 0%Z n) (Z.of_nat vaoOffset) ;;
      let '(names, s1) := genNames n (emit (GenVertexArrays (GLsizei (Z.of_nat n))) s) in
      let vaos := vertexArrayObjects ++ names in
      s2 <- setupPrimitives vaos (Z.of_nat vaoOffset) (primitives mesh) 0 s1 ;;
      setupMeshes rest vaos ranges s2
  end.

(** [ViewerApplication::createVertexArrayObjects]: the VAOs, the ranges
    appended to [meshIndexToVaoRange], and the GL state. *)
Definition createVertexArrayObjects (meshIndexToVaoRange : list VaoRange) (s : GLState)
  : option (list Z * list VaoRange * GLState) :=
  r <- setupMeshes (meshes model) [] meshIndexToVaoRange s ;;
  let '(vaos, ranges, s1) := r in
  Some (vaos, ranges, emit (BindVAO 0) s1).

End Setup.

(** Reading a call log: the VAOs bound, the attribute locations enabled,
    the buffers bound to a target; and the VAOs bound by draw calls. *)
Definition vaoBinds (log : list SetupCall) : list Z :=
  flat_map (fun c => match c with BindVAO v => [v] | _ => [] end) log.
Definition enabledLocations (log : list SetupCall) : list Z :=
  flat_map (fun c => match c with EnableVertexAttribArray i => [i] | _ => [] end) log.
Definition bufferBinds (target : Z) (log : list SetupCall) : list Z :=
  flat_map (fun c => match c with
                     | BindBuffer t b => if (t =? target)%Z then [b] else []
                     | _ => [] end) log.
Definition boundVaos (calls : list GLCall) : list Z :=
  flat_map (fun c => match c with BindVertexArray v => [v] | _ => [] end) calls.

(** The number of primitives of a list of meshes. *)
Fixpoint primCount (ms : list Mesh) : nat :=
  match ms with
  | [] => O
  | m :: ms' => (List.length (primitives m) + primCount ms')%nat
  end.

(** The ranges of consecutive blocks of VAOs, one block per mesh, the
    first one starting at [off]. *)
Fixpoint rangesFrom (off : nat) (ms : list Mesh) : list VaoRange :=
  match ms with
  | [] => []
  | m :: ms' =>
      mkVaoRange (GLsizei (Z.of_nat off)) (GLsizei (Z.of_nat (List.length (primitives m))))
        :: rangesFrom (off + List.length (primitives m)) ms'
  end.

(** [sampleModel] with a buffer view that does not give its [target]
    (glTF makes it optional, tinygltf reads it as [0]). *)
Definition untargetedModel : Model :=
  mkModel (accessors sampleModel)
          [mkBufferView 0 100 0 34963; mkBufferView 0 0 12 0]
          (meshes sampleModel) [] [] (-1).

(** A model with a mesh that has no primitive. *)
Definition emptyMeshModel : Model := mkModel [] [] [mkMesh []] [] [] (-1).

(** Two buffers of 3 and 2 bytes. *)
Definition sampleBuffers : list Buffer :=
  [[Byte.x01; Byte.x02; Byte.x03]; [Byte.x04; Byte.x05]].

(** ** Scene-dependent set-up of [ViewerApplication::run] *)

(** [maxDistance]: the length of the bounding box diagonal, or [100] when
    it is not positive. *)
Definition maxDistanceOf (bboxMin bboxMax : vec3) : R :=
  let diag := vsub bboxMax bboxMin in
  let maxDistance := length diag in
  if Rlt_dec 0 maxDistance then maxDistance else 100.

(** The near and far planes given to [glm::perspective]. *)
Definition projectionPlanes (bboxMin bboxMax : vec3) : R * R :=
  let maxDistance := maxDistanceOf bboxMin bboxMax in
  ((1 / 1000) * maxDistance, (3 / 2) * maxDistance).

(** [cameraSpeed * maxDistance], the speed given to both controllers. *)
Definition controllerSpeed (bboxMin bboxMax : vec3) : R :=
  (9 / 4) * maxDistanceOf bboxMin bboxMax.

(** The default camera, used when no [--lookat] camera is given. *)
Definition defaultCamera (bboxMin bboxMax : vec3) : Camera :=
  let diag := vsub bboxMax bboxMin in
  let center := vscale (1 / 2) (vadd bboxMax bboxMin) in
  let up := Vec3 0 1 0 in
  let eye := if Rlt_dec 0 (vz diag) then vadd center diag
             else vadd center (vscale 2 (cross diag up)) in
  mkCamera eye center up.

(** The camera the controller starts with. *)
Definition initialCamera (userCamera : option Camera) (bboxMin bboxMax : vec3) : Camera :=
  match userCamera with
  | Some c => c
  | None => defaultCamera bboxMin bboxMax
  end.

(** The [--lookat] camera of the [ViewerApplication] constructor: [None]
    for no user camera; reading [lookatArgs[0..8]] past the end of the
    vector is undefined behaviour, the outer [None]. *)
Definition userCameraOf (lookatArgs : list R) : option (option Camera) :=
  match lookatArgs with
  | [] => Some None
  | _ =>
      a0 <- nth_error lookatArgs 0 ;; a1 <- nth_error lookatArgs 1 ;;
      a2 <- nth_error lookatArgs 2 ;; a3 <- nth_error lookatArgs 3 ;;
      a4 <- nth_error lookatArgs 4 ;; a5 <- nth_error lookatArgs 5 ;;
      a6 <- nth_error lookatArgs 6 ;; a7 <- nth_error lookatArgs 7 ;;
      a8 <- nth_error lookatArgs 8 ;;
      Some (Some (mkCamera (Vec3 a0 a1 a2) (Vec3 a3 a4 a5) (Vec3 a6 a7 a8)))
  end.

(** The direction set by the [theta] / [phi] sliders of the Light panel. *)
Definition sliderLightDirection (theta phi : R) : vec3 :=
  Vec3 (sin theta * cos phi) (cos theta) (sin theta * sin phi).

(** One frame of the Light panel, for the light direction: the checkbox
    value [lightFromCamera] (after the checkbox), whether a slider was
    moved, and the slider values. *)
Record LightFrame := mkLightFrame {
  lf_lightFromCamera : bool;
  lf_sliderMoved : bool;
  lf_theta : R;
  lf_phi : R
}.

Definition lightPanel (f : LightFrame) (lightDirection : vec3) : vec3 :=
  if negb (lf_lightFromCamera f) then
    if lf_sliderMoved f then sliderLightDirection (lf_theta f) (lf_phi f)
    else lightDirection
  else lightDirection.

(** The light direction after a sequence of frames, from
    [glm::vec3 lightDirection(1, 1, 1)]. *)
Definition lightDirectionAfter (frames : list LightFrame) : vec3 :=
  fold_left (fun d f => lightPanel f d) frames (Vec3 1 1 1).

(** ** Fragment shaders *)

Definition vmul (a b : vec3) : vec3 := Vec3 (vx a * vx b) (vy a * vy b) (vz a * vz b).
Definition vconst (k : R) : vec3 := Vec3 k k k.

(** [diffuse_directional_light.fs.glsl]. *)
Definition diffuseShader (normal lightDirection lightIntensity : vec3) : vec3 :=
  let viewSpaceNormal := normalize normal in
  vscale (dot viewSpaceNormal lightDirection)
         (vmul (vconst (1 / (31415 / 10000))) lightIntensity).

(** The inputs of [pbr_directional_light.fs.glsl]: varyings, uniforms and
    the two texture samples at [vTexCoords]. *)
Record PbrInputs := mkPbrInputs {
  vViewSpacePosition : vec3;
  vViewSpaceNormal : vec3;
  uLightDirection : vec3;
  uLightIntensity : vec3;
  uBaseColorFactor : vec4;
  uRoughnessFactor : R;
  uMetallicFactor : R;
  baseColorTexel : vec4;          (* texture(uBaseColorTexture, vTexCoords) *)
  metallicRoughnessTexel : vec4   (* texture(uMetallicRoughnessTexture, vTexCoords) *)
}.

Definition with_roughness (i : PbrInputs) (r : R) : PbrInputs :=
  mkPbrInputs (vViewSpacePosition i) (vViewSpaceNormal i) (uLightDirection i)
    (uLightIntensity i) (uBaseColorFactor i) r (uMetallicFactor i)
    (baseColorTexel i) (metallicRoughnessTexel i).

Definition GAMMA : R := 22 / 10.
Definition INV_GAMMA : R := 1 / GAMMA.
Definition M_PI : R := IZR 3141592653589793 / IZR (10 ^ 15).
Definition M_1_PI : R := 1 / M_PI.

(** GLSL's [clamp] and [mix]. *)
Definition clamp (x minVal maxVal : R) : R := Rmin (Rmax x minVal) maxVal.
Definition mix (x y a : vec3) : vec3 :=
  Vec3 (vx x * (1 - vx a) + vx y * vx a) (vy x * (1 - vy a) + vy y * vy a)
       (vz x * (1 - vz a) + vz y * vz a).

Section Pbr.

(** GLSL's built-in [pow]. *)
Variable pow : R -> R -> R.

Definition vpow (v e : vec3) : vec3 :=
  Vec3 (pow (vx v) (vx e)) (pow (vy v) (vy e)) (pow (vz v) (vz e)).

Definition LINEARtoSRGB (color : vec3) : vec3 := vpow color (vconst INV_GAMMA).

Definition SRGBtoLINEAR (srgbIn : vec4) : vec4 :=
  let c := vpow (xyz srgbIn) (vconst GAMMA) in Vec4 (vx c) (vy c) (vz c) (qw srgbIn).

Definition v4mul (a b : vec4) : vec4 :=
  Vec4 (qx a * qx b) (qy a * qy b) (qz a * qz b) (qw a * qw b).

(** [main()] of [pbr_directional_light.fs.glsl]: [fColor]. *)
Definition pbrShader (i : PbrInputs) : vec3 :=
  let V := normalize (vscale (-1) (vViewSpacePosition i)) in
  let L := uLightDirection i in
  let N := normalize (vViewSpaceNormal i) in
  let H := normalize (vadd L V) in
  let baseColorFromTexture := SRGBtoLINEAR (baseColorTexel i) in
  let metallicRougnessFromTexture := metallicRoughnessTexel i in
  let baseColor := v4mul baseColorFromTexture (uBaseColorFactor i) in
  let metallic := vconst (uMetallicFactor i * qz metallicRougnessFromTexture) in
  let roughness := uRoughnessFactor i * qy metallicRougnessFromTexture in
  let dielectricSpecular := Vec3 (4 / 100) (4 / 100) (4 / 100) in
  let black := Vec3 0 0 0 in
  let c_diff := mix (vscale (1 - vx dielectricSpecular) (xyz baseColor)) black metallic in
  let diffuse := vscale M_1_PI c_diff in
  let F_0 := mix dielectricSpecular (xyz baseColor) metallic in
  let alpha := roughness * roughness in
  let baseShlickFactor := 1 - clamp (dot V N) 0 1 in
  let shlickFactor := baseShlickFactor * baseShlickFactor in
  let shlickFactor := shlickFactor * shlickFactor in
  let shlickFactor := shlickFactor * baseShlickFactor in
  let F := vadd F_0 (vscale shlickFactor (vsub (vconst 1) F_0)) in
  let NdotL := clamp (dot N L) 0 1 in
  let NdotV := clamp (dot N V) 0 1 in
  let alpha2 := alpha * alpha in
  let visDenominator :=
    NdotL * sqrt (NdotV * NdotV * (1 - alpha2) + alpha2)
    + NdotV * sqrt (NdotL * NdotL * (1 - alpha2) + alpha2) in
  let Vis := 0 in
  let visDenominator := if Rlt_dec 0 visDenominator then (1 / 2) / visDenominator
                        else visDenominator in
  let NdotH := clamp (dot N H) 0 1 in
  let baseDenomD := NdotH * NdotH * (alpha2 - 1) + 1 in
  let D := M_1_PI * alpha2 / (baseDenomD * baseDenomD) in
  let f_specular := vscale D (vscale Vis F) in
  let f_diffuse := vmul (vsub (vconst 1) F) diffuse in
  LINEARtoSRGB (vscale NdotL (vmul (vadd f_diffuse f_specular) (uLightIntensity i))).

End Pbr.

(** A fragment seen head-on, lit from the viewer's side. *)
Definition pbrSample : PbrInputs :=
  mkPbrInputs (Vec3 0 0 (-1)) (Vec3 0 0 1) (Vec3 0 0 1) (Vec3 1 1 1)
    (Vec4 1 1 1 1) 1 1 (Vec4 (1 / 2) (1 / 2) (1 / 2) 1) (Vec4 0 1 1 0).

(** ** IEEE 754 binary floating point *)

Section Binary.
Local Open Scope Z_scope.

(** A binary format: [prec] bits of significand, [emin] the exponent of
    the smallest subnormal, [emax] the largest exponent of the unit in the
    last place of a finite value. *)
Record fformat := mkFormat { prec : Z; emin : Z; emax : Z }.

Definition binary32 : fformat := mkFormat 24 (-149) 104.
Definition binary64 : fformat := mkFormat 53 (-1074) 971.

(** A value of a binary format: [Fin m e] is [m * 2^e]; the sign of a zero
    is not kept. *)
Inductive float := Fin (m e : Z) | Inf (neg : bool) | NaN.

(** [a / b] rounded to the nearest integer, ties to even ([b > 0]). *)
Definition rdiv (a b : Z) : Z :=
  let q := a / b in
  let r := a mod b in
  if 2 * r <? b then q
  else if b <? 2 * r then q + 1
  else if Z.even q then q else q + 1.

(** [p * 2^t / q] rounded to the nearest integer, ties to even. *)
Definition rne_scaled (p q t : Z) : Z :=
  if 0 <=? t then rdiv (p * 2 ^ t) q else rdiv p (q * 2 ^ (- t)).

(** The exponent [E] with [2^E <= p * 2^s / q < 2^(E+1)] ([p, q > 0]). *)
Definition mag (p q s : Z) : Z :=
  let lp := Z.log2 p in
  let lq := Z.log2 q in
  if q * 2 ^ lp <=? p * 2 ^ lq then lp - lq + s else lp - lq + s - 1.

(** Round to nearest, ties to even, of [p * 2^s / q] ([p, q > 0]), negated
    when [neg]; overflow gives an infinity. *)
Definition round_pos (fmt : fformat) (neg : bool) (p q s : Z) : float :=
  let k := Z.max (emin fmt) (mag p q s - prec fmt + 1) in
  let r := rne_scaled p q (s - k) in
  let '(r', k') := if r =? 2 ^ prec fmt then (2 ^ (prec fmt - 1), k + 1) else (r, k) in
  if emax fmt <? k' then Inf neg else Fin (if neg then - r' else r') k'.

(** The correctly rounded value of [n * 2^s / q] ([q > 0]). *)
Definition fround (fmt : fformat) (n q s : Z) : float :=
  if n =? 0 then Fin 0 0 else round_pos fmt (n <? 0) (Z.abs n) q s.

Definition fneg (a : float) : float :=
  match a with Fin m e => Fin (- m) e | Inf s => Inf (negb s) | NaN => NaN end.

Definition fadd (fmt : fformat) (a b : float) : float :=
  match a, b with
  | Fin m1 e1, Fin m2 e2 =>
      let e := Z.min e1 e2 in fround fmt (m1 * 2 ^ (e1 - e) + m2 * 2 ^ (e2 - e)) 1 e
  | Inf s1, Inf s2 => if Bool.eqb s1 s2 then Inf s1 else NaN
  | Inf s, Fin _ _ | Fin _ _, Inf s => Inf s
  | _, _ => NaN
  end.

Definition fsub (fmt : fformat) (a b : float) : float := fadd fmt a (fneg b).

Definition fmul (fmt : fformat) (a b : float) : float :=
  match a, b with
  | Fin m1 e1, Fin m2 e2 => fround fmt (m1 * m2) 1 (e1 + e2)
  | Inf s, Fin m _ | Fin m _, Inf s => if m =? 0 then NaN else Inf (xorb s (m <? 0))
  | Inf s1, Inf s2 => Inf (xorb s1 s2)
  | _, _ => NaN
  end.

(** A zero divisor is read as [+0]. *)
Definition fdiv (fmt : fformat) (a b : float) : float :=
  match a, b with
  | Fin m1 e1, Fin m2 e2 =>
      if m2 =? 0 then (if m1 =? 0 then NaN else Inf (m1 <? 0))
      else fround fmt (m1 * Z.sgn m2) (Z.abs m2) (e1 - e2)
  | Fin _ _, Inf _ => Fin 0 0
  | Inf s, Fin m _ => Inf (xorb s (m <? 0))
  | _, _ => NaN
  end.

(** The square root: [Z.sqrt] of the significand scaled by [4^(prec+2)],
    with a sticky bit for an inexact root, is rounded once. *)
Definition fsqrt (fmt : fformat) (a : float) : float :=
  match a with
  | Fin m e =>
      if m <? 0 then NaN
      else if m =? 0 then Fin 0 0
      else
        let '(m', e') := if Z.even e then (m, e) else (2 * m, e - 1) in
        let j := prec fmt + 2 in
        let n := m' * 2 ^ (2 * j) in
        let s0 := Z.sqrt n in
        fround fmt (2 * s0 + (if s0 * s0 =? n then 0 else 1)) 1 (e' / 2 - j - 1)
  | Inf false => Inf false
  | _ => NaN
  end.

(** [a < b] and [a == b]; every comparison with a NaN is false. *)
Definition fcmp (m1 e1 m2 e2 : Z) : comparison :=
  let e := Z.min e1 e2 in Z.compare (m1 * 2 ^ (e1 - e)) (m2 * 2 ^ (e2 - e)).

Definition flt (a b : float) : bool :=
  match a, b with
  | Fin m1 e1, Fin m2 e2 => match fcmp m1 e1 m2 e2 with Lt => true | _ => false end
  | Inf true, Fin _ _ | Fin _ _, Inf false | Inf true, Inf false => true
  | _, _ => false
  end.

Definition feqb (a b : float) : bool :=
  match a, b with
  | Fin m1 e1, Fin m2 e2 => match fcmp m1 e1 m2 e2 with Eq => true | _ => false end
  | Inf s1, Inf s2 => Bool.eqb s1 s2
  | _, _ => false
  end.

(** [x != 0], also the conversion of a float to [bool]. *)
Definition fnonzero (a : float) : bool := negb (feqb a (Fin 0 0)).

(** A conversion to [fmt] ([float(d)] for a [double] [d]). *)
Definition fcast (fmt : fformat) (a : float) : float :=
  match a with Fin m e => fround fmt m 1 e | _ => a end.

(** A decimal [float] literal [n / d]. *)
Definition flit (n d : Z) : float := fround binary32 n d 0.

Definition ffinite (a : float) : bool := match a with Fin _ _ => true | _ => false end.

(** A finite value of the format. *)
Definition fvalid (fmt : fformat) (a : float) : bool :=
  match a with
  | Fin m e => (Z.abs m <? 2 ^ prec fmt) && (emin fmt <=? e) && (e <=? emax fmt)
  | _ => false
  end.

End Binary.

Definition bpow (e : Z) : R := powerRZ 2 e.


(** [glm::vec3] of [float]s, binary32 arithmetic. *)
Record fvec3 := FVec3 { fx : float; fy : float; fz : float }.

Definition fvadd (a b : fvec3) : fvec3 :=
  FVec3 (fadd binary32 (fx a) (fx b)) (fadd binary32 (fy a) (fy b)) (fadd binary32 (fz a) (fz b)).
Definition fvsub (a b : fvec3) : fvec3 :=
  FVec3 (fsub binary32 (fx a) (fx b)) (fsub binary32 (fy a) (fy b)) (fsub binary32 (fz a) (fz b)).
(** [k * v]. *)
Definition fvscale (k : float) (v : fvec3) : fvec3 :=
  FVec3 (fmul binary32 k (fx v)) (fmul binary32 k (fy v)) (fmul binary32 k (fz v)).
(** [v / k]. *)
Definition fvdiv (v : fvec3) (k : float) : fvec3 :=
  FVec3 (fdiv binary32 (fx v) k) (fdiv binary32 (fy v) k) (fdiv binary32 (fz v) k).
(** [glm::dot]: the products, then [(x + y) + z]. *)
Definition fdot (a b : fvec3) : float :=
  fadd binary32 (fadd binary32 (fmul binary32 (fx a) (fx b)) (fmul binary32 (fy a) (fy b)))
       (fmul binary32 (fz a) (fz b)).
(** [glm::length]: [sqrt(dot(v, v))]. *)
Definition flength (v : fvec3) : float := fsqrt binary32 (fdot v v).

Definition fveqb (a b : fvec3) : bool :=
  feqb (fx a) (fx b) && feqb (fy a) (fy b) && feqb (fz a) (fz b).
Definition fvvalid (a : fvec3) : bool :=
  fvalid binary32 (fx a) && fvalid binary32 (fy a) && fvalid binary32 (fz a).

Record fCamera := mkFCamera { feye : fvec3; fcenter : fvec3; fup : fvec3 }.

(** [glm::min(x, y)]: [(y < x) ? y : x]. *)
Definition fmin (x y : float) : float := if flt y x then y else x.

(** [0.01f * float(cursorDelta.x)], from the [double] delta. *)
Definition horizontalMovement32 (deltaX : float) : float :=
  fmul binary32 (flit 1 100) (fcast binary32 deltaX).

(** [TrackballCameraController::update] in binary32, for a frame with the
    zoom modifier (CTRL) held and the pan modifier (SHIFT) released, given
    the [double] cursor delta: whether it reports a move, and the camera
    [Camera(newEye, center, worldUp)] it leaves. *)
Definition tb_zoom_update32 (c : fCamera) (worldUp : fvec3) (deltaX deltaY : float)
  : bool * fCamera :=
  let horizontalMovement := horizontalMovement32 deltaX in
  let verticalMovement := fmul binary32 (flit 1 100) (fcast binary32 deltaY) in
  let hasMoved := fnonzero horizontalMovement || fnonzero verticalMovement in
  if negb hasMoved then (false, c)
  else if negb (fnonzero horizontalMovement) then (false, c)
  else
    let viewVector := fvsub (fcenter c) (feye c) in
    let viewLength := flength viewVector in
    let horizontalMovement :=
      if flt (Fin 0 0) horizontalMovement
      then fmin horizontalMovement (fsub binary32 viewLength (flit 1 10000))
      else horizontalMovement in
    let front := fvdiv viewVector viewLength in
    let translationVector := fvscale horizontalMovement front in
    let newEye := fvadd (feye c) translationVector in
    (true, mkFCamera newEye (fcenter c) worldUp).

Definition f32 (n : Z) : float := fround binary32 n 1 0.


Definition fnonneg (a : float) : bool :=
  match a with Fin m _ => (0 <=? m)%Z | Inf s => negb s | NaN => false end.
Definition fnonpos (a : float) : bool :=
  match a with Fin m _ => (m <=? 0)%Z | Inf s => s | NaN => false end.


(** * Properties *)

(** ** Helper lemmas on the controllers *)

Lemma nonzero_false (x : R) : nonzero x = false <-> x = 0.
Proof. unfold nonzero; destruct (Req_EM_T x 0); split; congruence. Qed.

Lemma nonzero_true (x : R) : nonzero x = true <-> x <> 0.
Proof. unfold nonzero; destruct (Req_EM_T x 0); split; congruence. Qed.

Lemma pollCursor_camera b st inp :
  m_camera (fst (pollCursor b st inp)) = m_camera st
  /\ m_worldUpAxis (fst (pollCursor b st inp)) = m_worldUpAxis st
  /\ m_fSpeed (fst (pollCursor b st inp)) = m_fSpeed st.
Proof.
  unfold pollCursor.
  destruct (getMouseButton inp b), (m_ButtonPressed st); simpl; auto.
Qed.

Lemma with_camera_camera st c : m_camera (with_camera st c) = c.
Proof. reflexivity. Qed.

Lemma length_nonneg v : 0 <= length v.
Proof. apply sqrt_pos. Qed.

(** [update] with CTRL held and SHIFT released. *)
Lemma tb_update_ctrl st inp dt st1 dx dy :
  pollCursor MOUSE_BUTTON_MIDDLE st inp = (st1, (dx, dy)) ->
  getKey inp KEY_LEFT_SHIFT = false -> getKey inp KEY_LEFT_CONTROL = true ->
  tb_update st inp dt =
    if nonzero (1 / 100 * dx) then
      match zoomCamera (m_camera st1) (m_worldUpAxis st1) (1 / 100 * dx) with
      | None => None
      | Some c => Some (true, with_camera st1 c)
      end
    else Some (false, st1).
Proof.
  intros Hp Hs Hc. unfold tb_update. rewrite Hp. simpl fst; simpl snd.
  rewrite Hs, Hc.
  destruct (nonzero (1 / 100 * dx)), (nonzero (1 / 100 * dy)); reflexivity.
Qed.

Lemma pollCursor_fst_camera b st inp st1 d :
  pollCursor b st inp = (st1, d) ->
  m_camera st1 = m_camera st /\ m_worldUpAxis st1 = m_worldUpAxis st
  /\ m_fSpeed st1 = m_fSpeed st.
Proof.
  intros H. pose proof (pollCursor_camera b st inp) as P. rewrite H in P. exact P.
Qed.

(** ** Binary floating point *)

Lemma bpow_IZR (t : Z) : (0 <= t)%Z -> bpow t = IZR (2 ^ t).
Proof.
  intros H. destruct t as [|p|p]; [reflexivity| |lia].
  unfold bpow. simpl powerRZ. rewrite (pow_IZR 2 (Pos.to_nat p)), positive_nat_Z. reflexivity.
Qed.

Lemma bpow_add a b : bpow (a + b) = bpow a * bpow b.
Proof. unfold bpow. apply powerRZ_add. lra. Qed.

Lemma bpow_pos a : 0 < bpow a.
Proof. unfold bpow. apply powerRZ_lt. lra. Qed.


Lemma bpow_ge1 d : (0 <= d)%Z -> 1 <= bpow d.
Proof.
  intros H. rewrite bpow_IZR by exact H. apply IZR_le.
  assert (0 < 2 ^ d)%Z by (apply Z.pow_pos_nonneg; lia). lia.
Qed.



Lemma bpow_le_inv a b : bpow a <= bpow b -> (a <= b)%Z.
Proof.
  intros H. destruct (Z_lt_le_dec b a) as [L|L]; [|exact L].
  replace a with (b + 1 + (a - b - 1))%Z in H by lia.
  rewrite !bpow_add in H. pose proof (bpow_pos b).
  pose proof (bpow_ge1 (a - b - 1) ltac:(lia)).
  assert (E1 : bpow 1 = 2) by (unfold bpow; simpl; ring). rewrite E1 in H. nra.
Qed.

(** ** Rounding to an integer *)








Lemma pow2_pos a : (0 <= a)%Z -> (0 < 2 ^ a)%Z.
Proof. intros H. apply Z.pow_pos_nonneg; lia. Qed.

Lemma IZR_pos_pow2 a : (0 <= a)%Z -> 0 < IZR (2 ^ a).
Proof. intros H. apply IZR_lt. apply pow2_pos, H. Qed.










(** ** Rounded operations *)





Lemma fnonneg_fneg a : fnonneg (fneg a) = fnonpos a.
Proof.
  destruct a as [m e|s|]; simpl; [|destruct s|]; try reflexivity.
  destruct (Z.leb_spec 0 (- m)), (Z.leb_spec m 0); lia.
Qed.








Lemma fadd_fin_nan fmt m e : fadd fmt (Fin m e) NaN = NaN.
Proof. reflexivity. Qed.























Lemma ffinite_not_nan a : ffinite a = true -> a <> NaN.
Proof. destruct a; simpl; congruence. Qed.



Lemma fsub_self fmt a : fsub fmt a a = Fin 0 0 \/ fsub fmt a a = NaN.
Proof.
  destruct a as [m e|[]|]; [left|right|right|right]; try reflexivity.
  unfold fsub, fadd, fneg. rewrite Z.min_id, Z.sub_diag.
  replace (m * 2 ^ 0 + - m * 2 ^ 0)%Z with 0%Z by ring. reflexivity.
Qed.

Lemma zero_or_nan_fmul fmt a b : (a = Fin 0 0 \/ a = NaN) -> (b = Fin 0 0 \/ b = NaN) ->
  fmul fmt a b = Fin 0 0 \/ fmul fmt a b = NaN.
Proof. intros [-> | ->] [-> | ->]; auto. Qed.

Lemma zero_or_nan_fadd fmt a b : (a = Fin 0 0 \/ a = NaN) -> (b = Fin 0 0 \/ b = NaN) ->
  fadd fmt a b = Fin 0 0 \/ fadd fmt a b = NaN.
Proof. intros [-> | ->] [-> | ->]; auto. Qed.

Lemma zero_or_nan_fsqrt fmt a : (a = Fin 0 0 \/ a = NaN) ->
  fsqrt fmt a = Fin 0 0 \/ fsqrt fmt a = NaN.
Proof. intros [-> | ->]; auto. Qed.

Lemma zero_or_nan_fdiv fmt a b : (a = Fin 0 0 \/ a = NaN) -> (b = Fin 0 0 \/ b = NaN) ->
  fdiv fmt a b = NaN.
Proof. intros [-> | ->] [-> | ->]; reflexivity. Qed.

Lemma fmul_nan_r fmt a : fmul fmt a NaN = NaN.
Proof. destruct a as [| [] |]; reflexivity. Qed.

Lemma fadd_nan_r fmt a : fadd fmt a NaN = NaN.
Proof. destruct a as [| [] |]; reflexivity. Qed.

Lemma flength_self_sub x y z :
  flength (fvsub (FVec3 x y z) (FVec3 x y z)) = Fin 0 0 \/
  flength (fvsub (FVec3 x y z) (FVec3 x y z)) = NaN.
Proof.
  unfold flength, fdot, fvsub. cbn [fx fy fz].
  apply zero_or_nan_fsqrt.
  repeat apply zero_or_nan_fadd; apply zero_or_nan_fmul; apply fsub_self.
Qed.

(** C7: with the eye on the center the zoom branch does not clamp
    anything away: [viewLength] is [0] (or NaN when a coordinate is
    infinite), [viewVector / viewLength] divides [0] by [0], and every
    frame with a non-zero [horizontalMovement] gives the camera the eye
    [(NaN, NaN, NaN)]. *)
Theorem trackball_zoom_at_center_nan c worldUp dX dY :
  feye c = fcenter c -> fnonzero (horizontalMovement32 dX) = true ->
  tb_zoom_update32 c worldUp dX dY =
  (true, mkFCamera (FVec3 NaN NaN NaN) (fcenter c) worldUp).
Proof.
  intros He Hnz. unfold tb_zoom_update32. cbv zeta. rewrite Hnz. cbn [orb negb].
  rewrite He. destruct (fcenter c) as [x y z].
  pose proof (flength_self_sub x y z) as HL.
  set (L := flength _) in *. unfold fvadd, fvscale, fvdiv, fvsub. cbn [fx fy fz].
  rewrite !(zero_or_nan_fdiv binary32 (fsub binary32 _ _) L (fsub_self _ _) HL).
  rewrite !fmul_nan_r, !fadd_nan_r. reflexivity.
Qed.

Lemma trackball_zoom_at_center_nan_witness :
  let c := mkFCamera (FVec3 (f32 1) (f32 2) (f32 3)) (FVec3 (f32 1) (f32 2) (f32 3))
             (FVec3 (f32 0) (f32 1) (f32 0)) in
  feye c = fcenter c /\ fnonzero (horizontalMovement32 (Fin 100 0)) = true /\
  tb_zoom_update32 c (fup c) (Fin 100 0) (Fin 0 0) =
  (true, mkFCamera (FVec3 NaN NaN NaN) (fcenter c) (fup c)).
Proof.
  intros c. split; [reflexivity|]. split; [vm_compute; reflexivity|].
  apply trackball_zoom_at_center_nan; [reflexivity|vm_compute; reflexivity].
Defined.

(** C7: an eye [2^-76] from the center (so [eye != center]) also loses
    finiteness: [dot(viewVector, viewVector) = 2^-152] underflows to [0],
    [viewLength] is [0], and the new eye is [(+inf, NaN, NaN)]. *)
Lemma trackball_zoom_near_center_not_finite :
  let c := mkFCamera (FVec3 (Fin 1 (-76)) (Fin 0 0) (Fin 0 0)) (FVec3 (Fin 0 0) (Fin 0 0) (Fin 0 0))
             (FVec3 (Fin 0 0) (Fin 1 0) (Fin 0 0)) in
  fveqb (feye c) (fcenter c) = false /\ fvvalid (feye c) = true /\
  tb_zoom_update32 c (fup c) (Fin 100 0) (Fin 0 0) =
  (true, mkFCamera (FVec3 (Inf false) NaN NaN) (fcenter c) (fup c)).
Proof. vm_compute. repeat split. Qed.

(** C1: the clamp [min(h, viewLength - 1e-4f)] does not keep the eye off
    the center in binary32: with the eye at [(3001, 0, 0)], the center at
    [(3000, 0, 0)] and a cursor moved by [100] pixels, [h = 1] is clamped to
    [0.9999], and [3001 - 0.9999] rounds to [3000]: after one zoom frame
    [eye == center]. *)
Lemma trackball_zoom_in_lands_on_center :
  let c := mkFCamera (FVec3 (f32 3001) (f32 0) (f32 0)) (FVec3 (f32 3000) (f32 0) (f32 0))
             (FVec3 (f32 0) (f32 1) (f32 0)) in
  fveqb (feye c) (fcenter c) = false /\
  flt (Fin 0 0) (horizontalMovement32 (Fin 100 0)) = true /\
  exists c', tb_zoom_update32 c (fup c) (Fin 100 0) (Fin 0 0) = (true, c') /\
  fveqb (feye c') (fcenter c') = true.
Proof.
  vm_compute. split; [reflexivity|]. split; [reflexivity|].
  eexists. split; [reflexivity|]. reflexivity.
Qed.




(** ** C8: no cursor movement, no camera change *)

(** C8: for every modifier-key combination, when the cursor delta of the
    frame is [(0, 0)] the trackball [update] returns [false] before
    consulting any modifier key, and the camera is unchanged. *)
Theorem trackball_zero_delta_returns_false st inp dt st1 :
  pollCursor MOUSE_BUTTON_MIDDLE st inp = (st1, (0, 0)) ->
  tb_update st inp dt = Some (false, st1) /\ m_camera st1 = m_camera st.
Proof.
  intros Hp. split.
  - unfold tb_update. rewrite Hp. simpl fst; simpl snd.
    replace (nonzero (1 / 100 * 0)) with false
      by (symmetry; apply nonzero_false; ring).
    reflexivity.
  - apply (pollCursor_fst_camera _ _ _ _ _ Hp).
Qed.

Lemma trackball_zero_delta_returns_false_witness :
  pollCursor MOUSE_BUTTON_MIDDLE (sampleController sampleCamera)
    (modifierInput (0, 0) true true)
    = (mkController sampleCamera (0, 0) true 1 (Vec3 0 1 0), (0, 0))
  /\ tb_update (sampleController sampleCamera) (modifierInput (0, 0) true true) 1
     = Some (false, mkController sampleCamera (0, 0) true 1 (Vec3 0 1 0))
  /\ m_camera (mkController sampleCamera (0, 0) true 1 (Vec3 0 1 0))
     = m_camera (sampleController sampleCamera).
Proof.
  assert (Hp : pollCursor MOUSE_BUTTON_MIDDLE (sampleController sampleCamera)
                 (modifierInput (0, 0) true true)
               = (mkController sampleCamera (0, 0) true 1 (Vec3 0 1 0), (0, 0))).
  { unfold pollCursor; simpl. repeat f_equal; ring. }
  split; [exact Hp|].
  apply (trackball_zero_delta_returns_false _ _ 1 _ Hp).
Defined.

(** ** C3: the boolean result of [update] *)

Lemma moveLocal_zero c : moveLocal c 0 0 0 = c.
Proof.
  destruct c as [[ex ey ez] [cx cy cz] u].
  unfold moveLocal, vadd, vscale; simpl. f_equal; f_equal; ring.
Qed.

(** C3 (counterexample): with SHIFT held and a purely vertical cursor
    movement, the pan branch calls [moveLocal(0, 0, 0)] and returns [true]
    although the camera is unchanged. *)
Lemma trackball_pan_true_without_change :
  tb_update (sampleController sampleCamera) (modifierInput (0, 100) true false) 1
  = Some (true, mkController sampleCamera (0, 100) true 1 (Vec3 0 1 0))
  /\ m_camera (mkController sampleCamera (0, 100) true 1 (Vec3 0 1 0))
     = m_camera (sampleController sampleCamera).
Proof.
  split; [|reflexivity].
  unfold tb_update, pollCursor; simpl.
  replace (nonzero (1 / 100 * (0 - 0))) with false
    by (symmetry; apply nonzero_false; ring).
  replace (nonzero (1 / 100 * (100 - 0))) with true
    by (symmetry; apply nonzero_true; lra).
  simpl. replace (1 / 100 * (0 - 0)) with 0 by ring.
  rewrite moveLocal_zero. reflexivity.
Qed.

(** C3 (amended): for both controllers, a [false] result means the camera
    was not changed; a [true] result means a motion was applied, which may
    leave the camera unchanged. *)
Theorem update_false_keeps_camera :
  (forall st inp dt st', fp_update st inp dt = (false, st') ->
                         m_camera st' = m_camera st)
  /\ (forall st inp dt st', tb_update st inp dt = Some (false, st') ->
                            m_camera st' = m_camera st).
Proof.
  split.
  - intros st inp dt st' H. unfold fp_update in H.
    destruct (pollCursor MOUSE_BUTTON_LEFT st inp) as [st1 d] eqn:Hp.
    destruct (pollCursor_fst_camera _ _ _ _ _ Hp) as [Hcam _].
    destruct (fpQuantities st1 inp d dt) as [[[[[tl pu] di] rr] pl] td].
    destruct (negb _); inversion H; subst; exact Hcam.
  - intros st inp dt st' H. unfold tb_update in H.
    destruct (pollCursor MOUSE_BUTTON_MIDDLE st inp) as [st1 [dx dy]] eqn:Hp.
    destruct (pollCursor_fst_camera _ _ _ _ _ Hp) as [Hcam _].
    simpl fst in H; simpl snd in H.
    destruct (negb _); [inversion H; subst; exact Hcam|].
    destruct (getKey inp KEY_LEFT_SHIFT); [discriminate|].
    destruct (getKey inp KEY_LEFT_CONTROL).
    + destruct (negb _); [inversion H; subst; exact Hcam|].
      destruct (zoomCamera _ _ _); discriminate.
    + discriminate.
Qed.

(** An input with no button and no key held. *)
Lemma update_false_keeps_camera_witness :
  (fp_update (sampleController sampleCamera)
     (mkInput (fun _ => false) (0, 0) (fun _ => false)) 1
   = (false, mkController sampleCamera (0, 0) false 1 (Vec3 0 1 0))
   /\ m_camera (mkController sampleCamera (0, 0) false 1 (Vec3 0 1 0))
      = m_camera (sampleController sampleCamera))
  /\ (tb_update (sampleController sampleCamera)
        (mkInput (fun _ => false) (0, 0) (fun _ => false)) 1
      = Some (false, mkController sampleCamera (0, 0) false 1 (Vec3 0 1 0))
      /\ m_camera (mkController sampleCamera (0, 0) false 1 (Vec3 0 1 0))
         = m_camera (sampleController sampleCamera)).
Proof.
  assert (Hf : fp_update (sampleController sampleCamera)
                 (mkInput (fun _ => false) (0, 0) (fun _ => false)) 1
               = (false, mkController sampleCamera (0, 0) false 1 (Vec3 0 1 0))).
  { unfold fp_update, pollCursor, fpQuantities; simpl.
    unfold nonzero. destruct (Req_EM_T 0 0); [|congruence].
    destruct (Req_EM_T (- (1 / 100) * 0) 0); [|exfalso; lra].
    destruct (Req_EM_T (1 / 100 * 0) 0); [|exfalso; lra].
    reflexivity. }
  assert (Ht : tb_update (sampleController sampleCamera)
                 (mkInput (fun _ => false) (0, 0) (fun _ => false)) 1
               = Some (false, mkController sampleCamera (0, 0) false 1 (Vec3 0 1 0))).
  { unfold tb_update, pollCursor; simpl.
    unfold nonzero. destruct (Req_EM_T (1 / 100 * 0) 0); [|exfalso; lra].
    reflexivity. }
  split; split; try assumption.
  - apply (proj1 update_false_keeps_camera _ _ _ _ Hf).
  - apply (proj2 update_false_keeps_camera _ _ _ _ Ht).
Defined.

(** ** C4: the orbit step *)

Lemma hasMoved_of_delta (dx dy : R) :
  (dx, dy) <> (0, 0) ->
  nonzero (1 / 100 * dx) || nonzero (1 / 100 * dy) = true.
Proof.
  intros H. unfold nonzero.
  destruct (Req_EM_T (1 / 100 * dx) 0), (Req_EM_T (1 / 100 * dy) 0); auto.
  exfalso. apply H. f_equal; lra.
Qed.

(** C4: for every trackball frame with no modifier held and a non-zero
    cursor delta [(dx, dy)], [update] returns [true]; the radius vector
    [eye - center] is first rotated by [verticalMovement = dy/100] radians
    about the camera's left axis, the result then by
    [-horizontalMovement = -dx/100] radians about the world-up axis; the new
    eye is [center] plus that vector, the center is unchanged and the camera
    is rebuilt with the world-up axis. *)
Theorem trackball_orbit_pitch_then_yaw st inp dt st1 dx dy :
  pollCursor MOUSE_BUTTON_MIDDLE st inp = (st1, (dx, dy)) ->
  (dx, dy) <> (0, 0) ->
  getKey inp KEY_LEFT_SHIFT = false -> getKey inp KEY_LEFT_CONTROL = false ->
  tb_update st inp dt =
    Some (true, with_camera st1
      (mkCamera
         (vadd (center (m_camera st))
               (rotate_dir (- (1 / 100 * dx)) (m_worldUpAxis st)
                  (rotate_dir (1 / 100 * dy) (left (m_camera st))
                     (vsub (eye (m_camera st)) (center (m_camera st))))))
         (center (m_camera st)) (m_worldUpAxis st))).
Proof.
  intros Hp Hd Hs Hc.
  destruct (pollCursor_fst_camera _ _ _ _ _ Hp) as [Hcam [Hup _]].
  unfold tb_update. rewrite Hp. simpl fst; simpl snd.
  rewrite (hasMoved_of_delta dx dy Hd). simpl negb. cbv iota.
  rewrite Hs, Hc. unfold orbitCamera. rewrite Hcam, Hup. reflexivity.
Qed.

Lemma trackball_orbit_pitch_then_yaw_witness :
  tb_update (sampleController sampleCamera) (modifierInput (10, 10) false false) 1 =
    Some (true, with_camera (mkController sampleCamera (10, 10) true 1 (Vec3 0 1 0))
      (mkCamera
         (vadd (center sampleCamera)
               (rotate_dir (- (1 / 100 * (10 - 0))) (Vec3 0 1 0)
                  (rotate_dir (1 / 100 * (10 - 0)) (left sampleCamera)
                     (vsub (eye sampleCamera) (center sampleCamera)))))
         (center sampleCamera) (Vec3 0 1 0))).
Proof.
  apply (trackball_orbit_pitch_then_yaw
           (sampleController sampleCamera) (modifierInput (10, 10) false false) 1
           (mkController sampleCamera (10, 10) true 1 (Vec3 0 1 0)) (10 - 0) (10 - 0));
    [reflexivity | | reflexivity | reflexivity].
  intros H. injection H. lra.
Defined.

(** ** C5: the first-person update *)

(** C5: with [(truckLeft, pedestalUp, dollyIn, rollAngle, panAngle,
    tiltAngle)] the six quantities accumulated from the keys and the cursor
    delta, [FirstPersonCameraController::update] returns [false] exactly
    when all six are zero; otherwise it returns [true] and the new camera is
    [moveLocal(truckLeft, pedestalUp, dollyIn)], then
    [rotateLocal(rollAngle, tiltAngle, 0)], then
    [rotateWorld(panAngle, worldUpAxis)] applied to the old one. *)
Theorem firstperson_update_order st inp dt st1 d tl pu di rr pl td :
  pollCursor MOUSE_BUTTON_LEFT st inp = (st1, d) ->
  fpQuantities st1 inp d dt = (tl, pu, di, rr, pl, td) ->
  (fst (fp_update st inp dt) = false <->
     tl = 0 /\ pu = 0 /\ di = 0 /\ rr = 0 /\ pl = 0 /\ td = 0)
  /\ (fst (fp_update st inp dt) = true ->
      m_camera (snd (fp_update st inp dt)) =
        rotateWorld (rotateLocal (moveLocal (m_camera st) tl pu di) rr td 0)
                    pl (m_worldUpAxis st)).
Proof.
  intros Hp Hq.
  destruct (pollCursor_fst_camera _ _ _ _ _ Hp) as [Hcam [Hup _]].
  unfold fp_update. rewrite Hp, Hq.
  unfold nonzero.
  destruct (Req_EM_T tl 0), (Req_EM_T pu 0), (Req_EM_T di 0),
           (Req_EM_T pl 0), (Req_EM_T td 0), (Req_EM_T rr 0);
    simpl; rewrite ?Hcam, ?Hup;
    (split; [split; [intros H; try discriminate; tauto
                    | intros H; try reflexivity; exfalso; tauto]
            | intros H; try discriminate; reflexivity]).
Qed.

(** Only the forward key held: [dollyIn = speed * elapsedTime]. *)
Lemma firstperson_update_order_witness :
  (fst (fp_update (sampleController sampleCamera)
          (mkInput (fun _ => false) (0, 0)
             (fun k => match k with KEY_W => true | _ => false end)) 1) = false <->
     0 = 0 /\ 0 = 0 /\ 0 + 1 * 1 = 0 /\ 0 = 0 /\ - (1 / 100) * 0 = 0 /\ 1 / 100 * 0 = 0)
  /\ (fst (fp_update (sampleController sampleCamera)
             (mkInput (fun _ => false) (0, 0)
                (fun k => match k with KEY_W => true | _ => false end)) 1) = true ->
      m_camera (snd (fp_update (sampleController sampleCamera)
                       (mkInput (fun _ => false) (0, 0)
                          (fun k => match k with KEY_W => true | _ => false end)) 1)) =
        rotateWorld (rotateLocal (moveLocal sampleCamera 0 0 (0 + 1 * 1)) 0 (1 / 100 * 0) 0)
                    (- (1 / 100) * 0) (Vec3 0 1 0)).
Proof.
  apply (firstperson_update_order
           (sampleController sampleCamera)
           (mkInput (fun _ => false) (0, 0)
              (fun k => match k with KEY_W => true | _ => false end)) 1
           (mkController sampleCamera (0, 0) false 1 (Vec3 0 1 0)) (0, 0));
    reflexivity.
Defined.

(** ** C9: the light direction uniform *)

(** C9: [drawScene] starts with the light uniforms; the light direction
    written (when its location exists) is
    [normalize((viewMatrix * vec4(lightDirection, 0)).xyz)] when the light
    is not attached to the camera and [(0, 0, 1)] when it is, the latter
    independent of the view matrix and of the world light direction. *)
Theorem light_direction_uniform
    (lightDirectionLocation lightIntensityLocation : Z) :
  (forall viewMatrix lightFromCamera lightDirection lightIntensity,
     lightUniforms lightDirectionLocation lightIntensityLocation viewMatrix
       lightFromCamera lightDirection lightIntensity =
     (if (lightDirectionLocation >=? 0)%Z then
        [Uniform3f lightDirectionLocation
           (if lightFromCamera then Vec3 0 0 1
            else normalize (xyz (mat_vec viewMatrix (to_vec4 lightDirection 0))))]
      else [])
     ++ (if (lightIntensityLocation >=? 0)%Z
         then [Uniform3f lightIntensityLocation lightIntensity] else []))
  /\ (forall viewMatrix viewMatrix' lightDirection lightDirection' lightIntensity,
        lightUniforms lightDirectionLocation lightIntensityLocation viewMatrix
          true lightDirection lightIntensity =
        lightUniforms lightDirectionLocation lightIntensityLocation viewMatrix'
          true lightDirection' lightIntensity)
  /\ (forall model vaos meshToVaos projMatrix mvpLoc mvLoc nLoc fuel camera
             lightFromCamera lightDirection lightIntensity calls,
        drawScene model vaos meshToVaos projMatrix mvpLoc mvLoc nLoc
          lightDirectionLocation lightIntensityLocation fuel camera
          lightFromCamera lightDirection lightIntensity = Some calls ->
        exists rest,
          calls = lightUniforms lightDirectionLocation lightIntensityLocation
                    (getViewMatrix camera) lightFromCamera lightDirection
                    lightIntensity ++ rest).
Proof.
  split; [|split].
  - intros. unfold lightUniforms.
    destruct (lightDirectionLocation >=? 0)%Z, lightFromCamera; reflexivity.
  - intros. reflexivity.
  - intros model vaos meshToVaos projMatrix mvpLoc mvLoc nLoc fuel camera
      lightFromCamera lightDirection lightIntensity calls H.
    unfold drawScene in H.
    destruct (drawSceneVisits _ _ _ _ _ _ _ _); simpl in H; [|discriminate].
    inversion H. eexists. reflexivity.
Qed.

(** A model with no default scene: only the light uniforms and the final
    unbinding are issued. *)
Lemma light_direction_uniform_witness :
  exists rest,
    [Uniform3f 0 (normalize (xyz (mat_vec (getViewMatrix sampleCamera)
                                          (to_vec4 (Vec3 1 1 1) 0))));
     Uniform3f 1 (Vec3 1 1 1); BindVertexArray 0]
    = lightUniforms 0 1 (getViewMatrix sampleCamera) false (Vec3 1 1 1) (Vec3 1 1 1)
      ++ rest.
Proof.
  apply (proj2 (proj2 (light_direction_uniform 0 1))
           (mkModel [] [] [] [] [] (-1)) [] [] mat_id 2%Z 3%Z 4%Z 1%nat sampleCamera false
           (Vec3 1 1 1) (Vec3 1 1 1)).
  reflexivity.
Defined.

(** ** C6: the draw call of a primitive *)

Lemma at_some_nonneg {A} (l : list A) i a : at_ l i = Some a -> (0 <= i)%Z.
Proof. unfold at_. destruct (i <? 0)%Z eqn:E; [discriminate | lia]. Qed.

(** C6: every primitive of a drawn mesh gets one [glBindVertexArray] and
    one draw call, in order. If the primitive declares an index accessor,
    the call is an indexed draw whose count and component type are the
    accessor's and whose byte offset is the accessor's [byteOffset] plus
    its buffer view's [byteOffset]; otherwise a non-indexed draw of the
    count of an attribute accessor (the first attribute of the map). The
    counts and offsets are taken as they fit [GLsizei] and [size_t]. *)
Theorem draw_primitive_params (model : Model) (vaos : list Z) :
  (forall primitive accessor bufferView,
     (indices primitive >= 0)%Z ->
     at_ (accessors model) (indices primitive) = Some accessor ->
     at_ (bufferViews model) (acc_bufferView accessor) = Some bufferView ->
     (0 <= acc_count accessor < 2 ^ 31)%Z ->
     (0 <= acc_byteOffset accessor)%Z -> (0 <= bv_byteOffset bufferView)%Z ->
     (acc_byteOffset accessor + bv_byteOffset bufferView < 2 ^ 64)%Z ->
     drawPrimitive model primitive =
       Some (DrawElements (mode primitive) (acc_count accessor)
               (acc_componentType accessor)
               (acc_byteOffset accessor + bv_byteOffset bufferView)))
  /\ (forall primitive name accessorIdx rest accessor,
        (indices primitive < 0)%Z ->
        attributes primitive = (name, accessorIdx) :: rest ->
        at_ (accessors model) accessorIdx = Some accessor ->
        (0 <= acc_count accessor < 2 ^ 31)%Z ->
        In (name, accessorIdx) (attributes primitive)
        /\ drawPrimitive model primitive =
             Some (DrawArrays (mode primitive) 0 (acc_count accessor)))
  /\ (forall vaoRange prims pIdx calls,
        drawPrimitives model vaos vaoRange prims pIdx = Some calls ->
        exists vc, Forall2 (fun p '(_, c) => drawPrimitive model p = Some c) prims vc
                   /\ calls = flat_map (fun '(v, c) => [BindVertexArray v; c]) vc).
Proof.
  split; [|split].
  - intros primitive accessor bufferView Hi Ha Hb Hc Ho1 Ho2 Hs.
    unfold drawPrimitive.
    replace (indices primitive >=? 0)%Z with true by (symmetry; apply Z.geb_le; lia).
    rewrite Ha. simpl. rewrite Hb. simpl.
    unfold GLsizei, size_t_add.
    rewrite (Z.mod_small (acc_count accessor)) by lia.
    replace (acc_count accessor >=? 2 ^ 31)%Z with false
      by (symmetry; rewrite Z.geb_leb; apply Z.leb_gt; lia).
    rewrite Z.mod_small by lia. reflexivity.
  - intros primitive name accessorIdx rest accessor Hi Hat Ha Hc.
    rewrite Hat. split; [left; reflexivity|].
    unfold drawPrimitive.
    replace (indices primitive >=? 0)%Z with false by (symmetry; rewrite Z.geb_leb; apply Z.leb_gt; lia).
    rewrite Hat, Ha. simpl. unfold GLsizei.
    rewrite Z.mod_small by lia.
    replace (acc_count accessor >=? 2 ^ 31)%Z with false
      by (symmetry; rewrite Z.geb_leb; apply Z.leb_gt; lia).
    reflexivity.
  - intros vaoRange prims. induction prims as [|p prims IH]; intros pIdx calls H.
    + simpl in H. inversion H. exists []. split; constructor.
    + simpl in H.
      destruct (at_ vaos (vr_begin vaoRange + pIdx)) as [vao|]; [|discriminate].
      simpl in H. destruct (drawPrimitive model p) as [c|] eqn:Hp; [|discriminate].
      simpl in H. destruct (drawPrimitives model vaos vaoRange prims (pIdx + 1))
        as [rest|] eqn:Hr; [|discriminate].
      simpl in H. inversion H; subst.
      destruct (IH _ _ Hr) as [vc [Hf Hc]].
      exists ((vao, c) :: vc). split.
      * constructor; [exact Hp | exact Hf].
      * simpl. rewrite Hc. reflexivity.
Qed.

Lemma draw_primitive_params_witness :
  drawPrimitive sampleModel indexedPrimitive = Some (DrawElements 4 36 5123 (8 + 100))
  /\ (In ("POSITION"%string, 1%Z) (attributes arrayPrimitive)
      /\ drawPrimitive sampleModel arrayPrimitive = Some (DrawArrays 4 0 24))
  /\ exists vc,
       Forall2 (fun p '(_, c) => drawPrimitive sampleModel p = Some c)
         [indexedPrimitive; arrayPrimitive] vc
       /\ [BindVertexArray 10; DrawElements 4 36 5123 108;
           BindVertexArray 11; DrawArrays 4 0 24]
          = flat_map (fun '(v, c) => [BindVertexArray v; c]) vc.
Proof.
  split; [|split].
  - apply (proj1 (draw_primitive_params sampleModel [10; 11]%Z) indexedPrimitive
             (mkAccessor 0 8 5123 65 36) (mkBufferView 0 100 0 34963));
      first [reflexivity | (unfold indexedPrimitive, arrayPrimitive; cbn; lia)].
  - apply (proj1 (proj2 (draw_primitive_params sampleModel [10; 11]%Z)) arrayPrimitive
             "POSITION"%string 1%Z [] (mkAccessor 1 0 5126 3 24));
      first [reflexivity | (unfold indexedPrimitive, arrayPrimitive; cbn; lia)].
  - apply (proj2 (proj2 (draw_primitive_params sampleModel [10; 11]%Z))
             (mkVaoRange 0 2) [indexedPrimitive; arrayPrimitive] 0%Z).
    reflexivity.
Defined.

(** ** C2: scene traversal *)

Lemma forEachNode_some g l vs :
  forEachNode g l = Some vs ->
  exists vss, Forall2 (fun i v => g i = Some v) l vss /\ vs = List.concat vss.
Proof.
  revert vs. induction l as [|i l IH]; intros vs H; simpl in H.
  - inversion H. exists []. split; [constructor | reflexivity].
  - destruct (g i) as [v|] eqn:Hg; [|discriminate]. simpl in H.
    destruct (forEachNode g l) as [vs'|] eqn:Hl; [|discriminate]. simpl in H.
    inversion H; subst. destruct (IH _ eq_refl) as [vss [F E]].
    exists (v :: vss). split; [constructor; assumption | simpl; rewrite E; reflexivity].
Qed.

Lemma Forall2_In_l {A B} (P : A -> B -> Prop) l1 l2 a :
  Forall2 P l1 l2 -> In a l1 -> exists b, In b l2 /\ P a b.
Proof.
  intros F. induction F as [|x y l1 l2 Pxy F IH]; simpl; [tauto|].
  intros [<-|Hin]; [exists y; auto|].
  destruct (IH Hin) as [b [Hb Pb]]. exists b; auto.
Qed.

Section Traversal.

Variable model : Model.
Variable vaos : list Z.
Variable meshToVaos : list VaoRange.
Variable projMatrix : mat4.
Variables mvpLoc mvLoc nLoc : Z.
Variable viewMatrix : mat4.

Local Abbreviation drawNode' :=
  (drawNode model vaos meshToVaos projMatrix mvpLoc mvLoc nLoc viewMatrix).
Local Abbreviation pathKey := (pathKey model).

(** One step of [drawNode] on an existing node. *)
Lemma drawNode_step fuel idx parent vs :
  drawNode' (S fuel) idx parent = Some vs ->
  exists n calls vss,
    at_ (nodes model) idx = Some n
    /\ Forall2 (fun c v => drawNode' fuel c (getLocalToWorldMatrix n parent) = Some v)
               (n_children n) vss
    /\ vs = mkVisit idx (getLocalToWorldMatrix n parent) calls :: List.concat vss.
Proof.
  intros H. cbn [drawNode] in H.
  destruct (at_ (nodes model) idx) as [n|] eqn:Hn; [|discriminate]. cbn [obind] in H.
  destruct (drawMesh _ _ _ _ _ _ _ _ _ _) as [calls|]; [|discriminate]. cbn [obind] in H.
  destruct (forEachNode _ _) as [ch|] eqn:Hf; [|discriminate]. cbn [obind] in H.
  inversion H; subst.
  destruct (forEachNode_some _ _ _ Hf) as [vss [F E]].
  exists n, calls, vss. subst. auto.
Qed.

(** The visits below [idx] are the paths below it, each with the product
    of the local transforms along it. *)
Lemma drawNode_paths fuel : forall idx anc vs,
  drawNode' fuel idx (pathWorld model anc) = Some vs ->
  map visitKey vs = map pathKey (nodePaths model fuel idx anc).
Proof.
  induction fuel as [|fuel IH]; intros idx anc vs H; [discriminate|].
  destruct (drawNode_step _ _ _ _ H) as [n [calls [vss [Hn [F E]]]]]. subst vs.
  clear H.
  assert (W : getLocalToWorldMatrix n (pathWorld model anc) = pathWorld model (idx :: anc)).
  { simpl. unfold localOf. rewrite Hn. reflexivity. }
  rewrite W in F |- *.
  simpl. rewrite Hn. simpl. f_equal.
  rewrite !concat_map, map_map. f_equal.
  induction F as [|c v cs vs' Hc F IHF]; [reflexivity|].
  simpl. rewrite (IH _ _ _ Hc), IHF. reflexivity.
Qed.

(** Every path below a node the traversal reaches is enumerated. *)
Lemma drawNode_complete idx anc rp :
  InTree model idx anc rp ->
  forall fuel parent vs, drawNode' fuel idx parent = Some vs ->
  In rp (nodePaths model fuel idx anc).
Proof.
  induction 1 as [idx anc n Hn | idx anc n c rp Hn Hc Hin IH];
    intros [|fuel] parent vs H; try discriminate.
  - simpl. rewrite Hn. left. reflexivity.
  - destruct (drawNode_step _ _ _ _ H) as [n' [calls [vss [Hn' [F E]]]]].
    rewrite Hn in Hn'. inversion Hn'; subst n'.
    destruct (Forall2_In_l _ _ _ _ F Hc) as [v [_ Hv]].
    simpl. rewrite Hn. right.
    apply in_concat. eexists. split; [apply in_map; exact Hc|].
    exact (IH _ _ _ Hv).
Qed.

End Traversal.

Section Forest.

Variable model : Model.

Lemma nodePaths_sound fuel : forall idx anc rp,
  In rp (nodePaths model fuel idx anc) -> InTree model idx anc rp.
Proof.
  induction fuel as [|fuel IH]; intros idx anc rp H; [contradiction|].
  simpl in H. destruct (at_ (nodes model) idx) as [n|] eqn:Hn; [|contradiction].
  destruct H as [<-|H]; [eapply in_tree_here; eauto|].
  apply in_concat in H. destruct H as [l [Hl Hrp]].
  apply in_map_iff in Hl. destruct Hl as [c [<- Hc]].
  eapply in_tree_child; eauto.
Qed.

Lemma nodePaths_suffix fuel : forall idx anc rp,
  In rp (nodePaths model fuel idx anc) -> exists pre, rp = pre ++ idx :: anc.
Proof.
  intros idx anc rp H. apply nodePaths_sound in H.
  induction H as [idx anc n Hn | idx anc n c rp Hn Hc Hin IH].
  - exists []. reflexivity.
  - destruct IH as [pre E]. exists (pre ++ [c]). rewrite E, <- app_assoc. reflexivity.
Qed.

Lemma InTree_RootPath roots idx anc rp :
  InTree model idx anc rp -> RootPath model roots (idx :: anc) -> RootPath model roots rp.
Proof.
  induction 1 as [idx anc n Hn | idx anc n c rp Hn Hc Hin IH]; intros Hr; [exact Hr|].
  apply IH. eapply root_path_child; eauto.
Qed.

Lemma NoDup_app_disjoint {A} (l1 l2 : list A) a :
  NoDup (l1 ++ l2) -> In a l1 -> In a l2 -> False.
Proof.
  induction l1 as [|b l1 IH]; simpl; [tauto|].
  intros H [<-|Hin] Hin2; apply NoDup_cons_iff in H; destruct H as [Hb H].
  - apply Hb. apply in_or_app. right. exact Hin2.
  - exact (IH H Hin Hin2).
Qed.

Lemma NoDup_concat_in {A} (l : list (list A)) a :
  NoDup (List.concat l) -> In a l -> NoDup a.
Proof.
  induction l as [|b l IH]; simpl; [tauto|].
  intros H [<-|Hin].
  - exact (NoDup_app_remove_r _ _ H).
  - exact (IH (NoDup_app_remove_l _ _ H) Hin).
Qed.

Lemma NoDup_concat_nth {A} (l : list (list A)) : forall i j a b x,
  NoDup (List.concat l) -> nth_error l i = Some a -> nth_error l j = Some b ->
  In x a -> In x b -> i = j.
Proof.
  induction l as [|c l IH]; intros [|i] [|j] a b x H Ha Hb Hxa Hxb;
    simpl in *; try discriminate; try reflexivity.
  - inversion Ha; subst. exfalso. apply (NoDup_app_disjoint _ _ x H Hxa).
    apply in_concat. exists b. split; [eapply nth_error_In; eauto | exact Hxb].
  - inversion Hb; subst. exfalso. apply (NoDup_app_disjoint _ _ x H Hxb).
    apply in_concat. exists a. split; [eapply nth_error_In; eauto | exact Hxa].
  - f_equal. exact (IH _ _ _ _ _ (NoDup_app_remove_l _ _ H) Ha Hb Hxa Hxb).
Qed.

Lemma at_nth_error {A} (l : list A) i a :
  at_ l i = Some a -> (0 <= i)%Z /\ nth_error l (Z.to_nat i) = Some a.
Proof. unfold at_. destruct (i <? 0)%Z eqn:E; [discriminate|]. split; [lia | exact H]. Qed.

Lemma child_in_all_children y n x :
  at_ (nodes model) y = Some n -> In x (n_children n) ->
  In x (List.concat (map n_children (nodes model))).
Proof.
  intros Hy Hx. apply at_nth_error in Hy. destruct Hy as [_ Hy].
  apply in_concat. exists (n_children n). split; [|exact Hx].
  apply in_map. eapply nth_error_In; eauto.
Qed.

Variable roots : list Z.
Hypothesis Hforest : forest model roots.

Lemma forest_unique_parent y y' n n' x :
  at_ (nodes model) y = Some n -> at_ (nodes model) y' = Some n' ->
  In x (n_children n) -> In x (n_children n') -> y = y'.
Proof.
  intros Hy Hy' Hx Hx'.
  apply at_nth_error in Hy. apply at_nth_error in Hy'.
  destruct Hy as [Py Hy]. destruct Hy' as [Py' Hy'].
  apply (map_nth_error n_children) in Hy. apply (map_nth_error n_children) in Hy'.
  pose proof (NoDup_concat_nth _ _ _ _ _ _ (NoDup_app_remove_l _ _ Hforest) Hy Hy' Hx Hx').
  apply Z2Nat.inj; assumption.
Qed.

Lemma forest_root_no_parent r y n :
  In r roots -> at_ (nodes model) y = Some n -> In r (n_children n) -> False.
Proof.
  intros Hr Hy Hc.
  exact (NoDup_app_disjoint _ _ r Hforest Hr (child_in_all_children _ _ _ Hy Hc)).
Qed.

Lemma forest_children_NoDup idx n :
  at_ (nodes model) idx = Some n -> NoDup (n_children n).
Proof.
  intros Hn. apply (NoDup_concat_in (map n_children (nodes model))).
  - exact (NoDup_app_remove_l _ _ Hforest).
  - apply at_nth_error in Hn. destruct Hn as [_ Hn].
    apply in_map. eapply nth_error_In; eauto.
Qed.

(** In a forest a path from a root is determined by the node it ends at. *)
Lemma RootPath_unique l1 :
  RootPath model roots l1 -> forall l2, RootPath model roots l2 ->
  hd 0%Z l1 = hd 0%Z l2 -> l1 = l2.
Proof.
  induction 1 as [r Hr | x y n rest H1 IH Hy Hx]; intros l2 H2 Hhd.
  - inversion H2 as [r' Hr' | x' y' n' rest' H2' Hy' Hx']; subst; simpl in Hhd.
    + subst. reflexivity.
    + subst. exfalso. exact (forest_root_no_parent _ _ _ Hr Hy' Hx').
  - inversion H2 as [r' Hr' | x' y' n' rest' H2' Hy' Hx']; subst; simpl in Hhd.
    + subst. exfalso. exact (forest_root_no_parent _ _ _ Hr' Hy Hx).
    + subst x'. pose proof (forest_unique_parent _ _ _ _ _ Hy Hy' Hx Hx'). subst y'.
      rewrite (IH _ H2' eq_refl). reflexivity.
Qed.

End Forest.

Lemma NoDup_concat_map {A B} (g : A -> list B) l :
  NoDup l -> (forall x, In x l -> NoDup (g x)) ->
  (forall x y z, In x l -> In y l -> In z (g x) -> In z (g y) -> x = y) ->
  NoDup (List.concat (map g l)).
Proof.
  induction l as [|a l IH]; intros Hl Hg Hd; simpl; [constructor|].
  apply NoDup_cons_iff in Hl. destruct Hl as [Ha Hl].
  apply NoDup_app.
  - apply Hg. left. reflexivity.
  - apply IH; [exact Hl | intros x Hx; apply Hg; right; exact Hx |].
    intros x y z Hx Hy. apply Hd; right; assumption.
  - intros z Hz Hz'. apply in_concat in Hz'. destruct Hz' as [m [Hm Hzm]].
    apply in_map_iff in Hm. destruct Hm as [y [<- Hy]].
    pose proof (Hd a y z (or_introl eq_refl) (or_intror Hy) Hz Hzm). subst y.
    exact (Ha Hy).
Qed.

Section ForestPaths.

Variable model : Model.
Variable roots : list Z.
Hypothesis Hforest : forest model roots.

Lemma nodePaths_NoDup fuel : forall idx anc, NoDup (nodePaths model fuel idx anc).
Proof.
  induction fuel as [|fuel IH]; intros idx anc; simpl; [constructor|].
  destruct (at_ (nodes model) idx) as [n|] eqn:Hn; [|constructor].
  constructor.
  - intros Hin. apply in_concat in Hin. destruct Hin as [m [Hm Hin]].
    apply in_map_iff in Hm. destruct Hm as [c [<- _]].
    destruct (nodePaths_suffix _ _ _ _ _ Hin) as [pre E].
    apply (f_equal (@List.length Z)) in E. rewrite length_app in E. simpl in E. lia.
  - apply NoDup_concat_map.
    + exact (forest_children_NoDup _ _ Hforest _ _ Hn).
    + intros c _. apply IH.
    + intros c c' z _ _ Hz Hz'.
      destruct (nodePaths_suffix _ _ _ _ _ Hz) as [pre E].
      destruct (nodePaths_suffix _ _ _ _ _ Hz') as [pre' E'].
      rewrite E in E'.
      replace (pre ++ c :: idx :: anc) with ((pre ++ [c]) ++ idx :: anc) in E'
        by (rewrite <- app_assoc; reflexivity).
      replace (pre' ++ c' :: idx :: anc) with ((pre' ++ [c']) ++ idx :: anc) in E'
        by (rewrite <- app_assoc; reflexivity).
      apply app_inv_tail in E'. apply app_inj_tail in E'. destruct E' as [_ E'].
      exact E'.
Qed.

Lemma scenePaths_NoDup fuel : NoDup (scenePaths model fuel roots).
Proof.
  unfold scenePaths. apply NoDup_concat_map.
  - exact (NoDup_app_remove_r _ _ Hforest).
  - intros r _. apply nodePaths_NoDup.
  - intros r r' z _ _ Hz Hz'.
    destruct (nodePaths_suffix _ _ _ _ _ Hz) as [pre E].
    destruct (nodePaths_suffix _ _ _ _ _ Hz') as [pre' E'].
    rewrite E in E'. apply app_inj_tail in E'. destruct E' as [_ E'].
    exact E'.
Qed.

End ForestPaths.

Lemma scenePaths_RootPath model fuel roots rp :
  In rp (scenePaths model fuel roots) -> RootPath model roots rp.
Proof.
  unfold scenePaths. intros H. apply in_concat in H. destruct H as [m [Hm H]].
  apply in_map_iff in Hm. destruct Hm as [r [<- Hr]].
  eapply InTree_RootPath; [eapply nodePaths_sound; exact H|].
  apply root_path_root. exact Hr.
Qed.

Lemma scenePaths_nodes_NoDup model fuel roots :
  forest model roots -> NoDup (map (hd 0%Z) (scenePaths model fuel roots)).
Proof.
  intros Hf. apply NoDup_map_NoDup_ForallPairs; [|apply scenePaths_NoDup; exact Hf].
  intros a b Ha Hb E.
  exact (RootPath_unique model roots Hf a (scenePaths_RootPath _ _ _ _ Ha) b
           (scenePaths_RootPath _ _ _ _ Hb) E).
Qed.

Lemma drawSceneVisits_keys model vaos m2v proj mvpLoc mvLoc nLoc view fuel roots visits :
  at_ (scenes model) (defaultScene model) = Some roots ->
  drawSceneVisits model vaos m2v proj mvpLoc mvLoc nLoc view fuel = Some visits ->
  exists vss,
    Forall2 (fun r v => drawNode model vaos m2v proj mvpLoc mvLoc nLoc view fuel r mat_id = Some v)
            roots vss /\
    visits = List.concat vss /\
    map visitKey visits = map (pathKey model) (scenePaths model fuel roots).
Proof.
  intros Hs Hd. unfold drawSceneVisits in Hd.
  pose proof (at_some_nonneg _ _ _ Hs) as Hge.
  replace (defaultScene model >=? 0)%Z with true in Hd by (symmetry; apply Z.geb_le; lia).
  rewrite Hs in Hd. cbn [obind] in Hd.
  destruct (forEachNode_some _ _ _ Hd) as [vss [F E]]. subst visits.
  exists vss. split; [exact F|]. split; [reflexivity|].
  unfold scenePaths. rewrite !concat_map, !map_map. f_equal.
  clear Hs Hd Hge.
  induction F as [|r v rs vs' Hr F IHF]; [reflexivity|].
  simpl. rewrite IHF. f_equal.
  exact (drawNode_paths model vaos m2v proj mvpLoc mvLoc nLoc view fuel r [] v Hr).
Qed.

Lemma mat_mul_id_r m : mat_mul m mat_id = m.
Proof.
  destruct m as [[a0 a1 a2 a3] [b0 b1 b2 b3] [c0 c1 c2 c3] [d0 d1 d2 d3]].
  unfold mat_mul, mat_vec, v4add, v4scale, mat_id; cbn [qx qy qz qw col0 col1 col2 col3].
  f_equal; f_equal; ring.
Qed.

Lemma translate_mul u t : mat_mul (translate u) (translate t) = translate (vadd u t).
Proof.
  destruct t as [tx ty tz], u as [ux uy uz].
  unfold mat_mul, mat_vec, v4add, v4scale, translate, vadd;
    cbn [qx qy qz qw col0 col1 col2 col3 vx vy vz].
  f_equal; f_equal; ring.
Qed.

(** A translated node below a translated parent is translated by the sum. *)
Lemma translatedNode_world t u ch :
  getLocalToWorldMatrix (translatedNode t ch) (translate u) = translate (vadd u t).
Proof.
  unfold getLocalToWorldMatrix, localTransform, translatedNode; cbn [n_matrix n_translation n_rotation n_scale].
  replace (mat4_cast (Vec4 0 0 0 1)) with mat_id
    by (unfold mat4_cast, mat_id; cbn [qx qy qz qw]; f_equal; f_equal; ring).
  replace (scale (Vec3 1 1 1)) with mat_id by reflexivity.
  rewrite !mat_mul_id_r. apply translate_mul.
Qed.

(** In the chain of three translated nodes, the innermost node is drawn
    with the translation by [(1,1,1)]. *)
Lemma chain_translations_compose :
  exists visits,
    drawSceneVisits chainModel [] [] mat_id 0 1 2 mat_id 3 = Some visits /\
    map visit_node visits = [0; 1; 2]%Z /\
    nth_error (map visit_modelMatrix visits) 2 = Some (translate (Vec3 1 1 1)).
Proof.
  exists [mkVisit 0 (getLocalToWorldMatrix (translatedNode (Vec3 1 0 0) [1%Z]) mat_id) [];
          mkVisit 1 (getLocalToWorldMatrix (translatedNode (Vec3 0 1 0) [2%Z])
                       (getLocalToWorldMatrix (translatedNode (Vec3 1 0 0) [1%Z]) mat_id)) [];
          mkVisit 2 (getLocalToWorldMatrix (translatedNode (Vec3 0 0 1) [])
                       (getLocalToWorldMatrix (translatedNode (Vec3 0 1 0) [2%Z])
                          (getLocalToWorldMatrix (translatedNode (Vec3 1 0 0) [1%Z]) mat_id))) []].
  split; [reflexivity|]. split; [reflexivity|].
  cbn [map nth_error visit_modelMatrix]. f_equal.
  change mat_id with (translate (Vec3 0 0 0)).
  rewrite !translatedNode_world.
  unfold vadd; cbn. f_equal; f_equal; ring.
Qed.

(** C2 (amended): when one frame's traversal of the scene [defaultScene]
    terminates with every index in range, it visits, for each path going
    down from a root through child links, the node at the end of that path,
    in depth-first preorder with roots and children in listed order; the
    transform of each visit is the product [I * L(root) * ... * L(node)] of
    the local transforms along its path. Every visit is a node reachable
    from a root, and when the node graph is a forest below the roots (no
    index listed twice among the roots and the child lists) every reachable
    node is visited exactly once. *)
Theorem traversal_visits_root_paths model vaos m2v proj mvpLoc mvLoc nLoc view fuel
    roots visits :
  at_ (scenes model) (defaultScene model) = Some roots ->
  drawSceneVisits model vaos m2v proj mvpLoc mvLoc nLoc view fuel = Some visits ->
  map visitKey visits = map (pathKey model) (scenePaths model fuel roots) /\
  (forall v, In v visits ->
     exists r rp, In r roots /\ InTree model r [] rp /\ hd 0%Z rp = visit_node v) /\
  (forest model roots ->
     NoDup (map visit_node visits) /\
     forall r rp, In r roots -> InTree model r [] rp ->
       In (hd 0%Z rp) (map visit_node visits)).
Proof.
  intros Hs Hd.
  destruct (drawSceneVisits_keys _ _ _ _ _ _ _ _ _ _ _ Hs Hd) as [vss [F [E K]]].
  assert (N : map visit_node visits = map (hd 0%Z) (scenePaths model fuel roots)).
  { replace (map visit_node visits) with (map fst (map visitKey visits))
      by (rewrite map_map; reflexivity).
    rewrite K, map_map. reflexivity. }
  split; [exact K|]. split.
  - intros v Hv. apply (in_map visit_node) in Hv. rewrite N in Hv.
    apply in_map_iff in Hv. destruct Hv as [rp [Hhd Hrp]].
    unfold scenePaths in Hrp. apply in_concat in Hrp. destruct Hrp as [m [Hm Hrp]].
    apply in_map_iff in Hm. destruct Hm as [r [<- Hr]].
    exists r, rp. split; [exact Hr|]. split; [|exact Hhd].
    exact (nodePaths_sound _ _ _ _ _ Hrp).
  - intros Hf. rewrite N. split; [exact (scenePaths_nodes_NoDup _ _ _ Hf)|].
    intros r rp Hr Ht.
    destruct (Forall2_In_l _ _ _ _ F Hr) as [v [_ Hv]].
    apply in_map. unfold scenePaths. apply in_concat.
    eexists. split; [apply in_map; exact Hr|].
    exact (drawNode_complete _ _ _ _ _ _ _ _ _ _ _ Ht _ _ _ Hv).
Qed.

Lemma traversal_visits_root_paths_witness :
  exists visits,
    drawSceneVisits chainModel [] [] mat_id 0 1 2 mat_id 3 = Some visits /\
    map visitKey visits = map (pathKey chainModel) (scenePaths chainModel 3 [0%Z]) /\
    NoDup (map visit_node visits).
Proof.
  eexists. split; [reflexivity|].
  destruct (traversal_visits_root_paths chainModel [] [] mat_id 0 1 2 mat_id 3 [0%Z] _
              eq_refl eq_refl) as [K [_ U]].
  split; [exact K|].
  apply (proj1 (U ltac:(unfold forest; cbn; repeat constructor; cbn; intuition discriminate))).
Defined.

(** C2: in a scene graph that is acyclic but not a tree (roots 0 and 2
    share the child 1), node 1 is visited twice in one frame. *)
Lemma traversal_dag_visits_shared_node_twice :
  exists visits,
    drawSceneVisits dagModel [] [] mat_id 0 1 2 mat_id 3 = Some visits /\
    map visit_node visits = [0; 1; 2; 1]%Z.
Proof. eexists. split; reflexivity. Qed.

(** ** GPU resources *)

Lemma emit_log c s : gl_log (emit c s) = gl_log s ++ [c].
Proof. reflexivity. Qed.

Lemma storeBuffers_log bos bufs : forall s,
  List.length bos = List.length bufs ->
  gl_log (storeBuffers bos bufs s)
  = gl_log s ++ flat_map (fun '(bo, buf) =>
                            [BindBuffer GL_ARRAY_BUFFER bo;
                             BufferStorage GL_ARRAY_BUFFER (Z.of_nat (List.length buf)) buf 0])
                         (combine bos bufs).
Proof.
  revert bufs. induction bos as [|bo bos IH]; intros [|buf bufs] s Hl; simpl in *;
    try discriminate; [rewrite app_nil_r; reflexivity|].
  rewrite IH by lia. simpl. rewrite <- !app_assoc. reflexivity.
Qed.

Lemma vaoBinds_app l1 l2 : vaoBinds (l1 ++ l2) = vaoBinds l1 ++ vaoBinds l2.
Proof. unfold vaoBinds. apply flat_map_app. Qed.
Lemma enabledLocations_app l1 l2 :
  enabledLocations (l1 ++ l2) = enabledLocations l1 ++ enabledLocations l2.
Proof. unfold enabledLocations. apply flat_map_app. Qed.
Lemma bufferBinds_app t l1 l2 :
  bufferBinds t (l1 ++ l2) = bufferBinds t l1 ++ bufferBinds t l2.
Proof. unfold bufferBinds. apply flat_map_app. Qed.

Section SetupProofs.

Variable model : Model.
Variable bufferObjects : list Z.
Variable NDEBUG : bool.

(** One attribute appends [Enable; BindBuffer ARRAY; VertexAttribPointer]
    when the primitive has it, nothing otherwise. *)
Lemma setupAttribute_log prim name loc s s' :
  setupAttribute model bufferObjects NDEBUG prim (name, loc) s = Some s' ->
  exists tail, gl_log s' = gl_log s ++ tail /\ vaoBinds tail = [] /\
    bufferBinds GL_ELEMENT_ARRAY_BUFFER tail = [] /\
    enabledLocations tail = match findAttribute name (attributes prim) with
                            | Some _ => [loc] | None => [] end.
Proof.
  unfold setupAttribute. destruct (findAttribute name (attributes prim)) as [a|].
  - intros H.
    destruct (at_ (accessors model) a) as [acc|]; [|discriminate]; cbn [obind] in H.
    destruct (at_ (bufferViews model) (acc_bufferView acc)) as [bv|]; [|discriminate];
      cbn [obind] in H.
    destruct (assert_ NDEBUG _) as [[]|]; [|discriminate]; cbn [obind] in H.
    destruct (at_ bufferObjects (bv_buffer bv)) as [bo|]; [|discriminate]; cbn [obind] in H.
    inversion H; subst s'. eexists. split.
    + cbn [gl_log emit]. rewrite <- !app_assoc. reflexivity.
    + repeat split; reflexivity.
  - intros H. inversion H; subst. exists []. rewrite app_nil_r. repeat split.
Qed.

Lemma setupAttributes_log prim attrs : forall s s',
  setupAttributes model bufferObjects NDEBUG prim attrs s = Some s' ->
  exists tail, gl_log s' = gl_log s ++ tail /\ vaoBinds tail = [] /\
    bufferBinds GL_ELEMENT_ARRAY_BUFFER tail = [] /\
    enabledLocations tail =
      map snd (filter (fun '(name, _) =>
                         match findAttribute name (attributes prim) with
                         | Some _ => true | None => false end) attrs).
Proof.
  induction attrs as [|[name loc] attrs IH]; intros s s' H; cbn [setupAttributes] in H.
  - inversion H; subst. exists []. rewrite app_nil_r. repeat split.
  - destruct (setupAttribute model bufferObjects NDEBUG prim (name, loc) s) as [s1|] eqn:H1;
      [|discriminate].
    cbn [obind] in H.
    destruct (setupAttribute_log _ _ _ _ _ H1) as [t1 [E1 [V1 [B1 L1]]]].
    destruct (IH _ _ H) as [t2 [E2 [V2 [B2 L2]]]].
    exists (t1 ++ t2). rewrite E2, E1, app_assoc.
    rewrite vaoBinds_app, bufferBinds_app, enabledLocations_app, V1, V2, B1, B2, L1, L2.
    repeat split. simpl.
    destruct (findAttribute name (attributes prim)); reflexivity.
Qed.

End SetupProofs.

Lemma skipn_nth_error {A} (l : list A) k v :
  nth_error l k = Some v -> skipn k l = v :: skipn (S k) l.
Proof.
  revert l. induction k as [|k IH]; intros [|a l] H; simpl in *; try discriminate.
  - inversion H. reflexivity.
  - apply IH. exact H.
Qed.

Lemma at_app_repeat (l : list Z) n :
  at_ (l ++ repeat 0%Z n) (Z.of_nat (List.length l)) <> None -> n <> O.
Proof.
  unfold at_. rewrite Nat2Z.id.
  destruct (Z.of_nat (List.length l) <? 0)%Z; [congruence|].
  rewrite nth_error_app2 by lia. rewrite Nat.sub_diag.
  destruct n; simpl; congruence.
Qed.

Section SetupProofs2.

Variable model : Model.
Variable bufferObjects : list Z.
Variable NDEBUG : bool.

Lemma setupPrimitive_log vao prim s s' :
  setupPrimitive model bufferObjects NDEBUG vao prim s = Some s' ->
  exists tail, gl_log s' = gl_log s ++ BindVAO vao :: tail /\ vaoBinds tail = [] /\
    enabledLocations tail = map snd (filter (hasAttribute prim) vertex_attributes) /\
    List.length (bufferBinds GL_ELEMENT_ARRAY_BUFFER tail)
      = (if (indices prim >=? 0)%Z then 1 else 0)%nat.
Proof.
  unfold setupPrimitive. intros H.
  destruct (setupAttributes model bufferObjects NDEBUG prim vertex_attributes
              (emit (BindVAO vao) s)) as [s1|] eqn:H1; [|discriminate].
  cbn [obind] in H.
  destruct (setupAttributes_log _ _ _ _ _ _ _ H1) as [t1 [E1 [V1 [B1 L1]]]].
  rewrite emit_log, <- app_assoc in E1. simpl in E1.
  destruct (indices prim >=? 0)%Z.
  - destruct (at_ (accessors model) (indices prim)) as [acc|]; [|discriminate];
      cbn [obind] in H.
    destruct (at_ (bufferViews model) (acc_bufferView acc)) as [bv|]; [|discriminate];
      cbn [obind] in H.
    destruct (assert_ NDEBUG _) as [[]|]; [|discriminate]; cbn [obind] in H.
    destruct (at_ bufferObjects (bv_buffer bv)) as [bo|]; [|discriminate]; cbn [obind] in H.
    inversion H; subst s'. exists (t1 ++ [BindBuffer GL_ELEMENT_ARRAY_BUFFER bo]).
    rewrite emit_log, E1, <- app_assoc. split; [reflexivity|].
    rewrite vaoBinds_app, enabledLocations_app, bufferBinds_app, V1, B1, L1.
    rewrite !app_nil_r. repeat split.
  - inversion H; subst s'. exists t1. rewrite E1, B1. repeat split; assumption.
Qed.

Lemma setupPrimitives_log vaos off prims : forall pIdx s s',
  (0 <= off + pIdx)%Z ->
  setupPrimitives model bufferObjects NDEBUG vaos off prims pIdx s = Some s' ->
  vaoBinds (gl_log s')
  = vaoBinds (gl_log s) ++ firstn (List.length prims) (skipn (Z.to_nat (off + pIdx)) vaos).
Proof.
  induction prims as [|p prims IH]; intros pIdx s s' Hp H; cbn [setupPrimitives] in H.
  - inversion H; subst. simpl. rewrite app_nil_r. reflexivity.
  - destruct (at_ vaos (off + pIdx)) as [vao|] eqn:Hv; [|discriminate]. cbn [obind] in H.
    destruct (setupPrimitive model bufferObjects NDEBUG vao p s) as [s1|] eqn:H1;
      [|discriminate]. cbn [obind] in H.
    rewrite (IH (pIdx + 1)%Z s1 s' ltac:(lia) H).
    destruct (setupPrimitive_log _ _ _ _ H1) as [t [E [V _]]].
    rewrite E, vaoBinds_app. simpl. rewrite V.
    unfold at_ in Hv. destruct (off + pIdx <? 0)%Z; [discriminate|].
    rewrite (skipn_nth_error _ _ _ Hv). simpl.
    replace (Z.to_nat (off + (pIdx + 1))) with (S (Z.to_nat (off + pIdx))) by lia.
    rewrite <- app_assoc. reflexivity.
Qed.

Lemma setupMeshes_shape ms : forall vaos ranges s vaos' ranges' s',
  setupMeshes model bufferObjects NDEBUG ms vaos ranges s = Some (vaos', ranges', s') ->
  Forall (fun m => primitives m <> []) ms /\
  exists names, vaos' = vaos ++ names /\ List.length names = primCount ms /\
    ranges' = ranges ++ rangesFrom (List.length vaos) ms /\
    vaoBinds (gl_log s') = vaoBinds (gl_log s) ++ names.
Proof.
  induction ms as [|m ms IH]; intros vaos ranges s vaos' ranges' s' H;
    cbn [setupMeshes] in H.
  - inversion H; subst. split; [constructor|]. exists [].
    rewrite !app_nil_r. repeat split.
  - destruct (at_ (vaos ++ repeat 0%Z (List.length (primitives m)))
                  (Z.of_nat (List.length vaos))) as [x|] eqn:Hx; [|discriminate].
    cbn [obind] in H.
    assert (Hn : List.length (primitives m) <> O) by (apply (at_app_repeat vaos); congruence).
    unfold genNames in H. cbn [gl_next gl_log emit] in H.
    set (names0 := map _ (seq 0 (List.length (primitives m)))) in H.
    destruct (setupPrimitives _ _ _ _ _ _ _ _) as [s2|] eqn:H2; [|discriminate].
    cbn [obind] in H.
    destruct (IH _ _ _ _ _ _ H) as [F [names [E1 [L1 [R1 B1]]]]].
    assert (Ln : List.length names0 = List.length (primitives m))
      by (unfold names0; rewrite length_map, length_seq; reflexivity).
    split.
    { constructor; [|exact F]. intros E. apply Hn. rewrite E. reflexivity. }
    exists (names0 ++ names). split; [rewrite E1, app_assoc; reflexivity|].
    split; [simpl; rewrite length_app, Ln, L1; reflexivity|].
    split.
    { rewrite R1, <- app_assoc. simpl. rewrite length_app, Ln. reflexivity. }
    rewrite B1.
    pose proof (fun Hp => setupPrimitives_log _ _ _ _ _ _ Hp H2) as E2.
    rewrite E2 by lia.
    cbn [gl_log]. rewrite vaoBinds_app. simpl. rewrite app_nil_r.
    rewrite Z.add_0_r, Nat2Z.id, skipn_app, skipn_all, Nat.sub_diag, <- Ln, firstn_all.
    simpl. rewrite app_assoc. reflexivity.
Qed.

End SetupProofs2.

Lemma GLsizei_small x : (0 <= x < 2 ^ 31)%Z -> GLsizei x = x.
Proof.
  intros H. unfold GLsizei. rewrite Z.mod_small by lia.
  destruct (x >=? 2 ^ 31)%Z eqn:E; [apply Z.geb_le in E; lia | reflexivity].
Qed.

Lemma drawPrimitive_binds_nothing model p c :
  drawPrimitive model p = Some c -> boundVaos [c] = [].
Proof.
  unfold drawPrimitive. intros H.
  destruct (indices p >=? 0)%Z.
  - destruct (at_ _ _) as [acc|]; [|discriminate]; cbn [obind] in H.
    destruct (at_ _ _) as [bv|]; [|discriminate]; cbn [obind] in H.
    inversion H; reflexivity.
  - destruct (attributes p) as [|[k a] rest]; [discriminate|].
    destruct (at_ _ _) as [acc|]; [|discriminate]; cbn [obind] in H.
    inversion H; reflexivity.
Qed.

Lemma drawPrimitives_binds model vaos off cnt prims : forall pIdx,
  (0 <= off)%Z -> (0 <= pIdx)%Z ->
  (Z.to_nat (off + pIdx) + List.length prims <= List.length vaos)%nat ->
  Forall (fun p => drawPrimitive model p <> None) prims ->
  exists calls, drawPrimitives model vaos (mkVaoRange off cnt) prims pIdx = Some calls /\
    boundVaos calls = firstn (List.length prims) (skipn (Z.to_nat (off + pIdx)) vaos).
Proof.
  induction prims as [|p prims IH]; intros pIdx Ho Hp Hl F.
  - exists []. split; reflexivity.
  - inversion F as [|? ? Hd F']; subst.
    destruct (nth_error vaos (Z.to_nat (off + pIdx))) as [v|] eqn:Hv;
      [|apply nth_error_None in Hv; simpl in Hl; lia].
    destruct (drawPrimitive model p) as [c|] eqn:Hc; [|congruence].
    destruct (IH (pIdx + 1)%Z Ho ltac:(lia) ltac:(simpl in Hl; lia) F') as [rest [Er Br]].
    exists (BindVertexArray v :: c :: rest). split.
    + cbn [drawPrimitives vr_begin]. unfold at_.
      replace (off + pIdx <? 0)%Z with false by (symmetry; apply Z.ltb_ge; lia).
      rewrite Hv. cbn [obind]. rewrite Hc. cbn [obind]. rewrite Er. reflexivity.
    + pose proof (drawPrimitive_binds_nothing _ _ _ Hc) as Hb.
      unfold boundVaos in Hb, Br |- *. cbn [flat_map] in Hb |- *.
      rewrite app_nil_r in Hb. rewrite Hb, Br, (skipn_nth_error _ _ _ Hv).
      simpl. replace (Z.to_nat (off + (pIdx + 1))) with (S (Z.to_nat (off + pIdx))) by lia.
      reflexivity.
Qed.

Lemma rangesFrom_nth ms : forall off i m,
  nth_error ms i = Some m ->
  nth_error (rangesFrom off ms) i
  = Some (mkVaoRange (GLsizei (Z.of_nat (off + primCount (firstn i ms))))
                     (GLsizei (Z.of_nat (List.length (primitives m))))).
Proof.
  induction ms as [|m0 ms IH]; intros off [|i] m H; simpl in H; try discriminate.
  - inversion H; subst. simpl. rewrite Nat.add_0_r. reflexivity.
  - simpl. rewrite (IH _ _ _ H). rewrite Nat.add_assoc. reflexivity.
Qed.

Lemma rangesFrom_length off ms : List.length (rangesFrom off ms) = List.length ms.
Proof. revert off. induction ms; intros off; simpl; [reflexivity | rewrite IHms; reflexivity]. Qed.

Lemma primCount_firstn ms i m :
  nth_error ms i = Some m ->
  (primCount (firstn i ms) + List.length (primitives m) <= primCount ms)%nat.
Proof.
  revert i. induction ms as [|m0 ms IH]; intros [|i] H; simpl in H; try discriminate.
  - inversion H; subst. simpl. lia.
  - simpl. specialize (IH _ H). lia.
Qed.

Lemma createVertexArrayObjects_shape model bos nd init s vaos ranges s' :
  createVertexArrayObjects model bos nd init s = Some (vaos, ranges, s') ->
  Forall (fun m => primitives m <> []) (meshes model) /\
  List.length vaos = primCount (meshes model) /\
  ranges = init ++ rangesFrom 0 (meshes model) /\
  vaoBinds (gl_log s') = vaoBinds (gl_log s) ++ vaos ++ [0%Z].
Proof.
  unfold createVertexArrayObjects. intros H.
  destruct (setupMeshes model bos nd (meshes model) [] init s) as [[[v r] s1]|] eqn:E;
    [|discriminate].
  cbn [obind] in H. inversion H; subst.
  destruct (setupMeshes_shape _ _ _ _ _ _ _ _ _ _ E) as [F [names [E1 [L1 [R1 B1]]]]].
  simpl in E1. subst. split; [exact F|]. split; [exact L1|]. split; [reflexivity|].
  rewrite emit_log, vaoBinds_app, B1, <- app_assoc. reflexivity.
Qed.

(** What makes a setup step fail whatever the state. *)
Lemma setupAttributes_fails model bos nd prim name loc attrs :
  (forall s, setupAttribute model bos nd prim (name, loc) s = None) ->
  In (name, loc) attrs -> forall s, setupAttributes model bos nd prim attrs s = None.
Proof.
  intros Hf. induction attrs as [|a attrs IH]; intros Hin s; [destruct Hin|].
  cbn [setupAttributes]. destruct Hin as [->|Hin].
  - rewrite Hf. reflexivity.
  - destruct (setupAttribute model bos nd prim a s); [apply IH; exact Hin | reflexivity].
Qed.

Lemma setupPrimitives_fails model bos nd prim vaos off prims :
  (forall vao s, setupPrimitive model bos nd vao prim s = None) ->
  In prim prims -> forall pIdx s, setupPrimitives model bos nd vaos off prims pIdx s = None.
Proof.
  intros Hf. induction prims as [|p prims IH]; intros Hin pIdx s; [destruct Hin|].
  cbn [setupPrimitives]. destruct (at_ vaos (off + pIdx)) as [vao|]; [|reflexivity].
  cbn [obind]. destruct Hin as [->|Hin].
  - rewrite Hf. reflexivity.
  - destruct (setupPrimitive model bos nd vao p s); [apply IH; exact Hin | reflexivity].
Qed.

Lemma setupMeshes_fails model bos nd prim mesh ms :
  (forall vao s, setupPrimitive model bos nd vao prim s = None) ->
  In mesh ms -> In prim (primitives mesh) ->
  forall vaos ranges s, setupMeshes model bos nd ms vaos ranges s = None.
Proof.
  intros Hf. induction ms as [|m ms IH]; intros Hin Hp vaos ranges s; [destruct Hin|].
  cbn [setupMeshes]. destruct (at_ _ _); [|reflexivity]. cbn [obind].
  destruct (genNames _ _) as [names s1].
  destruct Hin as [->|Hin].
  - rewrite (setupPrimitives_fails _ _ _ _ _ _ _ Hf Hp). reflexivity.
  - destruct (setupPrimitives _ _ _ _ _ _ _ _); [apply IH; assumption | reflexivity].
Qed.

Lemma setupMeshes_empty_fails model bos nd mesh ms :
  In mesh ms -> primitives mesh = [] ->
  forall vaos ranges s, setupMeshes model bos nd ms vaos ranges s = None.
Proof.
  intros Hin He. induction ms as [|m ms IH]; intros vaos ranges s; [destruct Hin|].
  cbn [setupMeshes]. destruct Hin as [->|Hin].
  - rewrite He. unfold at_. simpl. rewrite app_nil_r.
    replace (Z.of_nat (List.length vaos) <? 0)%Z with false by (symmetry; apply Z.ltb_ge; lia).
    rewrite Nat2Z.id, (proj2 (nth_error_None vaos _) (Nat.le_refl _)). reflexivity.
  - destruct (at_ _ _); [|reflexivity]. cbn [obind].
    destruct (genNames _ _) as [names s1].
    destruct (setupPrimitives _ _ _ _ _ _ _ _); [apply IH; exact Hin | reflexivity].
Qed.

(** ** Properties of the GPU resource setup *)

(** [createBufferObjects] returns one buffer object per glTF buffer; it
    generates them with one [glGenBuffers], then uploads each buffer whole
    ([glBufferStorage] with the buffer's byte size and data) into its own
    object, in order, and leaves [GL_ARRAY_BUFFER] unbound. *)
Theorem createBufferObjects_uploads buffers s :
  let '(bufferObjects, s') := createBufferObjects buffers s in
  List.length bufferObjects = List.length buffers /\
  gl_log s' = gl_log s ++ GenBuffers (GLsizei (Z.of_nat (List.length buffers)))
                :: flat_map (fun '(bo, buf) =>
                               [BindBuffer GL_ARRAY_BUFFER bo;
                                BufferStorage GL_ARRAY_BUFFER (Z.of_nat (List.length buf)) buf 0])
                            (combine bufferObjects buffers)
                ++ [BindBuffer GL_ARRAY_BUFFER 0].
Proof.
  unfold createBufferObjects, genNames. cbn [gl_next gl_log emit].
  assert (L : List.length (map (fun i => (gl_next s + Z.of_nat i)%Z)
                               (seq 0 (List.length buffers))) = List.length buffers)
    by (rewrite length_map, length_seq; reflexivity).
  split; [exact L|].
  rewrite storeBuffers_log by exact L. cbn [gl_log].
  rewrite <- !app_assoc. reflexivity.
Qed.

(** [createVertexArrayObjects] creates one VAO per primitive and appends
    to [meshIndexToVaoRange] one range per mesh, in mesh order: mesh [i]'s
    range starts at the number of primitives of the meshes before it and
    counts its own primitives (both cast to [GLsizei]); what the vector
    held before is kept. *)
Theorem createVertexArrayObjects_ranges model bufferObjects NDEBUG init s vaos ranges s' :
  createVertexArrayObjects model bufferObjects NDEBUG init s = Some (vaos, ranges, s') ->
  List.length vaos = primCount (meshes model) /\
  List.length ranges = (List.length init + List.length (meshes model))%nat /\
  firstn (List.length init) ranges = init /\
  forall i mesh, nth_error (meshes model) i = Some mesh ->
    nth_error ranges (List.length init + i)
    = Some (mkVaoRange (GLsizei (Z.of_nat (primCount (firstn i (meshes model)))))
                       (GLsizei (Z.of_nat (List.length (primitives mesh))))).
Proof.
  intros H. destruct (createVertexArrayObjects_shape _ _ _ _ _ _ _ _ H) as [_ [L [R _]]].
  subst ranges. split; [exact L|].
  split; [rewrite length_app, rangesFrom_length; reflexivity|].
  split; [rewrite firstn_app, Nat.sub_diag, firstn_all; simpl; apply app_nil_r|].
  intros i mesh Hm. rewrite nth_error_app2 by lia.
  replace (List.length init + i - List.length init)%nat with i by lia.
  rewrite (rangesFrom_nth _ 0 _ _ Hm). reflexivity.
Qed.

Lemma createVertexArrayObjects_ranges_witness :
  exists vaos ranges s',
    createVertexArrayObjects sampleModel [7%Z] false [] (mkGLState 1 []) = Some (vaos, ranges, s') /\
    List.length vaos = primCount (meshes sampleModel) /\
    nth_error ranges 0 = Some (mkVaoRange (GLsizei (Z.of_nat (primCount (firstn 0 (meshes sampleModel)))))
                                 (GLsizei (Z.of_nat 2))).
Proof.
  do 3 eexists. split; [reflexivity|].
  destruct (createVertexArrayObjects_ranges sampleModel [7%Z] false [] (mkGLState 1 [])
              _ _ _ eq_refl) as [L [_ [_ N]]].
  split; [exact L|]. exact (N 0%nat _ eq_refl).
Defined.

(** A mesh without primitive makes [createVertexArrayObjects] take
    [&vertexArrayObjects[vaoOffset]] with [vaoOffset] equal to the
    vector's size: the setup never succeeds on such a model. *)
Theorem createVertexArrayObjects_mesh_without_primitive model bufferObjects NDEBUG init s mesh :
  In mesh (meshes model) -> primitives mesh = [] ->
  createVertexArrayObjects model bufferObjects NDEBUG init s = None.
Proof.
  intros Hin He. unfold createVertexArrayObjects.
  rewrite (setupMeshes_empty_fails _ _ _ _ _ Hin He). reflexivity.
Qed.

Lemma createVertexArrayObjects_mesh_without_primitive_witness :
  createVertexArrayObjects emptyMeshModel [] true [] (mkGLState 1 []) = None.
Proof.
  apply (createVertexArrayObjects_mesh_without_primitive emptyMeshModel [] true [] _ (mkMesh []));
    [left; reflexivity | reflexivity].
Defined.

(** Setting up one primitive binds its VAO, then enables exactly the
    attribute locations of the attributes it has among [NORMAL] (1),
    [POSITION] (0) and [TEXCOORD_0] (2), in that (the map's) order, and
    binds an element array buffer once if it has indices, never
    otherwise. Other attributes are ignored. *)
Theorem setupPrimitive_attribute_locations model bufferObjects NDEBUG vao prim s s' :
  setupPrimitive model bufferObjects NDEBUG vao prim s = Some s' ->
  exists tail, gl_log s' = gl_log s ++ BindVAO vao :: tail /\
    enabledLocations tail = map snd (filter (hasAttribute prim) vertex_attributes) /\
    List.length (bufferBinds GL_ELEMENT_ARRAY_BUFFER tail)
      = (if (indices prim >=? 0)%Z then 1 else 0)%nat.
Proof.
  intros H. destruct (setupPrimitive_log _ _ _ _ _ _ _ H) as [tail [E [_ [L B]]]].
  exists tail. auto.
Qed.

Lemma setupPrimitive_attribute_locations_witness :
  exists s' tail,
    setupPrimitive sampleModel [7%Z] false 5 arrayPrimitive (mkGLState 1 []) = Some s' /\
    gl_log s' = BindVAO 5 :: tail /\ enabledLocations tail = [0%Z].
Proof.
  eexists. destruct (setupPrimitive_attribute_locations sampleModel [7%Z] false 5 arrayPrimitive
                       (mkGLState 1 []) _ eq_refl) as [tail [E [L _]]].
  exists tail. split; [reflexivity|]. split; [exact E | exact L].
Defined.

(** Setup and drawing agree: the setup binds, in order, every VAO it
    creates (the VAO of the [k]-th primitive of the model, counting mesh
    by mesh, is [vertexArrayObjects[k]]) and finally unbinds; and as long
    as there are fewer than [2^31] VAOs, drawing mesh [i] with its range
    binds exactly the slice of VAOs created for that mesh's primitives,
    one per primitive in order, never reading out of range. *)
Theorem draw_binds_setup_vaos model bufferObjects NDEBUG s vaos ranges s' i mesh :
  createVertexArrayObjects model bufferObjects NDEBUG [] s = Some (vaos, ranges, s') ->
  (Z.of_nat (List.length vaos) < 2 ^ 31)%Z ->
  nth_error (meshes model) i = Some mesh ->
  Forall (fun p => drawPrimitive model p <> None) (primitives mesh) ->
  vaoBinds (gl_log s') = vaoBinds (gl_log s) ++ vaos ++ [0%Z] /\
  exists range calls,
    nth_error ranges i = Some range /\
    drawPrimitives model vaos range (primitives mesh) 0 = Some calls /\
    boundVaos calls
    = firstn (List.length (primitives mesh))
             (skipn (primCount (firstn i (meshes model))) vaos).
Proof.
  intros H Hsz Hm F.
  destruct (createVertexArrayObjects_shape _ _ _ _ _ _ _ _ H) as [_ [L [R B]]].
  split; [exact B|]. subst ranges. simpl.
  pose proof (primCount_firstn _ _ _ Hm) as Hc.
  rewrite (rangesFrom_nth _ 0 _ _ Hm). simpl.
  rewrite (GLsizei_small (Z.of_nat (primCount (firstn i (meshes model))))) by lia.
  destruct (drawPrimitives_binds model vaos (Z.of_nat (primCount (firstn i (meshes model))))
              (GLsizei (Z.of_nat (List.length (primitives mesh)))) (primitives mesh) 0
              ltac:(lia) ltac:(lia) ltac:(lia) F) as [calls [E Bc]].
  exists (mkVaoRange (Z.of_nat (primCount (firstn i (meshes model))))
                     (GLsizei (Z.of_nat (List.length (primitives mesh))))), calls.
  split; [reflexivity|]. split; [exact E|].
  rewrite Bc. rewrite Z.add_0_r, Nat2Z.id. reflexivity.
Qed.

Lemma draw_binds_setup_vaos_witness :
  exists vaos ranges s' calls,
    createVertexArrayObjects sampleModel [7%Z] false [] (mkGLState 1 []) = Some (vaos, ranges, s') /\
    drawPrimitives sampleModel vaos (mkVaoRange 0 2) (primitives (mkMesh [indexedPrimitive; arrayPrimitive])) 0
      = Some calls /\
    boundVaos calls = [1%Z; 2%Z].
Proof.
  do 3 eexists.
  destruct (draw_binds_setup_vaos sampleModel [7%Z] false (mkGLState 1 []) _ _ _ 0%nat
              (mkMesh [indexedPrimitive; arrayPrimitive]) eq_refl ltac:(simpl; lia) eq_refl
              ltac:(repeat constructor; discriminate))
    as [_ [range [calls [Hr [E Bc]]]]].
  exists calls. split; [reflexivity|]. simpl in Hr. inversion Hr; subst range.
  split; [exact E|]. rewrite Bc. reflexivity.
Defined.

(** In a build with assertions, a primitive attribute among [NORMAL],
    [POSITION], [TEXCOORD_0] whose buffer view's [target] is not
    [GL_ARRAY_BUFFER] (for instance a buffer view that leaves the optional
    target out) makes [createVertexArrayObjects] abort. *)
Theorem createVertexArrayObjects_debug_abort model bufferObjects init s mesh prim name
    location accessorIdx accessor bufferView :
  In mesh (meshes model) -> In prim (primitives mesh) ->
  In (name, location) vertex_attributes ->
  findAttribute name (attributes prim) = Some accessorIdx ->
  at_ (accessors model) accessorIdx = Some accessor ->
  at_ (bufferViews model) (acc_bufferView accessor) = Some bufferView ->
  bv_target bufferView <> GL_ARRAY_BUFFER ->
  createVertexArrayObjects model bufferObjects false init s = None.
Proof.
  intros Hm Hp Ha Hf Hacc Hbv Ht. unfold createVertexArrayObjects.
  rewrite (setupMeshes_fails model bufferObjects false prim mesh); [reflexivity | | exact Hm | exact Hp].
  intros vao s1. unfold setupPrimitive.
  rewrite (setupAttributes_fails model bufferObjects false prim name location); [reflexivity | | exact Ha].
  intros s2. unfold setupAttribute. rewrite Hf, Hacc. cbn [obind]. rewrite Hbv. cbn [obind].
  unfold assert_. destruct (GL_ARRAY_BUFFER =? bv_target bufferView)%Z eqn:E;
    [apply Z.eqb_eq in E; congruence | reflexivity].
Qed.

Lemma createVertexArrayObjects_debug_abort_witness :
  createVertexArrayObjects untargetedModel [7%Z] false [] (mkGLState 1 []) = None.
Proof.
  apply (createVertexArrayObjects_debug_abort untargetedModel [7%Z] [] (mkGLState 1 [])
           (mkMesh [indexedPrimitive; arrayPrimitive]) arrayPrimitive "POSITION"%string 0%Z 1%Z
           (mkAccessor 1 0 5126 3 24) (mkBufferView 0 0 12 0));
    [left; reflexivity | right; left; reflexivity | right; left; reflexivity
    | reflexivity | reflexivity | reflexivity | discriminate].
Defined.

(** ** Properties of the scene-dependent set-up *)


Lemma defaultCamera_flat bboxMin bboxMax :
  vx (vsub bboxMax bboxMin) = 0 -> vz (vsub bboxMax bboxMin) = 0 ->
  eye (defaultCamera bboxMin bboxMax) = center (defaultCamera bboxMin bboxMax).
Proof.
  intros Hx Hz. unfold defaultCamera; cbn [eye center].
  destruct (Rlt_dec 0 (vz (vsub bboxMax bboxMin))) as [H|_]; [lra|].
  destruct (vsub bboxMax bboxMin) as [x y z]; cbn in Hx, Hz; subst.
  unfold vadd, vscale, cross; cbn. f_equal; ring.
Qed.

(** A scene whose bounding box has no extent along x and z (a point, or
    a vertical segment), viewed with the default camera: the first
    trackball zoom frame (CTRL held, a horizontal cursor move) divides by
    a zero view length, and no finite camera comes out. *)
Theorem flat_scene_first_zoom_fails bboxMin bboxMax st inp dt st1 dx dy :
  vx (vsub bboxMax bboxMin) = 0 -> vz (vsub bboxMax bboxMin) = 0 ->
  m_camera st = defaultCamera bboxMin bboxMax ->
  pollCursor MOUSE_BUTTON_MIDDLE st inp = (st1, (dx, dy)) ->
  dx <> 0 ->
  getKey inp KEY_LEFT_SHIFT = false -> getKey inp KEY_LEFT_CONTROL = true ->
  tb_update st inp dt = None.
Proof.
  intros Hx Hz Hc Hp Hdx Hs Hk.
  rewrite (tb_update_ctrl st inp dt st1 dx dy Hp Hs Hk).
  replace (nonzero (1 / 100 * dx)) with true by (symmetry; apply nonzero_true; lra).
  destruct (pollCursor_fst_camera _ _ _ _ _ Hp) as [C1 _].
  rewrite C1, Hc.
  pose proof (defaultCamera_flat bboxMin bboxMax Hx Hz) as E.
  unfold zoomCamera, vdiv. rewrite E.
  destruct (center (defaultCamera bboxMin bboxMax)) as [a b c].
  unfold length, dot, vsub; cbn.
  replace ((a - a) * (a - a) + (b - b) * (b - b) + (c - c) * (c - c)) with 0 by ring.
  rewrite sqrt_0.
  destruct (Req_EM_T 0 0); [reflexivity | congruence].
Qed.

Lemma flat_scene_first_zoom_fails_witness :
  vx (vsub (Vec3 0 0 0) (Vec3 0 (-1) 0)) = 0 /\ vz (vsub (Vec3 0 0 0) (Vec3 0 (-1) 0)) = 0 /\
  tb_update (sampleController (defaultCamera (Vec3 0 (-1) 0) (Vec3 0 0 0)))
            (modifierInput (50, 0) false true) 1 = None.
Proof.
  split; [cbn; ring|]. split; [cbn; ring|].
  apply (flat_scene_first_zoom_fails (Vec3 0 (-1) 0) (Vec3 0 0 0) _ _ 1
           (mkController (defaultCamera (Vec3 0 (-1) 0) (Vec3 0 0 0)) (50, 0) true 1 (Vec3 0 1 0))
           (50 - 0) (0 - 0)).
  - cbn; ring.
  - cbn; ring.
  - reflexivity.
  - reflexivity.
  - lra.
  - reflexivity.
  - reflexivity.
Defined.

(** ** Properties of the Light panel *)

(** The slider direction is a unit vector. *)
Lemma sliderLightDirection_unit theta phi :
  length (sliderLightDirection theta phi) = 1.
Proof.
  unfold length, dot, sliderLightDirection; cbn.
  replace (sin theta * cos phi * (sin theta * cos phi) + cos theta * cos theta +
           sin theta * sin phi * (sin theta * sin phi))
    with (sin theta * sin theta * (Rsqr (sin phi) + Rsqr (cos phi))
          + cos theta * cos theta) by (unfold Rsqr; ring).
  rewrite sin2_cos2. replace (sin theta * sin theta * 1 + cos theta * cos theta)
    with (Rsqr (sin theta) + Rsqr (cos theta)) by (unfold Rsqr; ring).
  rewrite sin2_cos2. apply sqrt_1.
Qed.

(** Whatever the frames, the light direction is either still the initial
    [(1, 1, 1)] or a unit vector set by the sliders. *)
Theorem lightDirection_invariant (frames : list LightFrame) :
  lightDirectionAfter frames = Vec3 1 1 1 \/
  exists theta phi, lightDirectionAfter frames = sliderLightDirection theta phi
                    /\ length (lightDirectionAfter frames) = 1.
Proof.
  unfold lightDirectionAfter.
  assert (G : forall d, (d = Vec3 1 1 1 \/ exists theta phi, d = sliderLightDirection theta phi) ->
            fold_left (fun d f => lightPanel f d) frames d = Vec3 1 1 1 \/
            exists theta phi, fold_left (fun d f => lightPanel f d) frames d
                              = sliderLightDirection theta phi).
  { induction frames as [|f fs IH]; intros d Hd; cbn; [exact Hd|].
    apply IH. unfold lightPanel.
    destruct (lf_lightFromCamera f), (lf_sliderMoved f); cbn; eauto. }
  destruct (G (Vec3 1 1 1) (or_introl eq_refl)) as [E|[t [p E]]]; [left; exact E|].
  right. exists t, p. split; [exact E|]. rewrite E. apply sliderLightDirection_unit.
Qed.

(** ** Properties of the fragment shaders *)

Lemma dot_normalize_self n :
  dot (normalize n) (normalize n) = 1 \/ normalize n = vzero.
Proof.
  destruct (Req_EM_T (dot n n) 0) as [Z|NZ].
  - right. unfold normalize. rewrite Z, sqrt_0, Rinv_0.
    unfold vscale, vzero; f_equal; ring.
  - left. assert (P : 0 < dot n n).
    { destruct n as [x y z]; unfold dot in *; cbn in *. nra. }
    unfold normalize.
    replace (dot (vscale (/ sqrt (dot n n)) n) (vscale (/ sqrt (dot n n)) n))
      with ((/ sqrt (dot n n)) * (/ sqrt (dot n n)) * dot n n)
      by (destruct n; unfold dot, vscale; cbn; ring).
    rewrite <- Rinv_mult, sqrt_sqrt by lra. field. lra.
Qed.

Lemma cauchy_schwarz a b : dot a b * dot a b <= dot a a * dot b b.
Proof.
  destruct a as [a1 a2 a3], b as [b1 b2 b3]; unfold dot; cbn.
  assert (E : (a1 * a1 + a2 * a2 + a3 * a3) * (b1 * b1 + b2 * b2 + b3 * b3)
              - (a1 * b1 + a2 * b2 + a3 * b3) * (a1 * b1 + a2 * b2 + a3 * b3)
              = (a2 * b3 - a3 * b2) * (a2 * b3 - a3 * b2)
                + (a3 * b1 - a1 * b3) * (a3 * b1 - a1 * b3)
                + (a1 * b2 - a2 * b1) * (a1 * b2 - a2 * b1)) by ring.
  assert (0 <= (a2 * b3 - a3 * b2) * (a2 * b3 - a3 * b2)) by apply Rle_0_sqr.
  assert (0 <= (a3 * b1 - a1 * b3) * (a3 * b1 - a1 * b3)) by apply Rle_0_sqr.
  assert (0 <= (a1 * b2 - a2 * b1) * (a1 * b2 - a2 * b1)) by apply Rle_0_sqr.
  lra.
Qed.

(** The diffuse shader does not clamp [dot(N, L)]: a fragment facing away
    from the light gets a negative color wherever the light intensity is
    positive. *)
Theorem diffuseShader_back_facing_negative normal L I :
  dot normal L < 0 ->
  (0 < vx I -> vx (diffuseShader normal L I) < 0) /\
  (0 < vy I -> vy (diffuseShader normal L I) < 0) /\
  (0 < vz I -> vz (diffuseShader normal L I) < 0).
Proof.
  intros Hn.
  assert (P : 0 < dot normal normal).
  { pose proof (cauchy_schwarz normal L).
    pose proof (Rle_0_sqr (vx L)); pose proof (Rle_0_sqr (vy L)); pose proof (Rle_0_sqr (vz L)).
    pose proof (Rle_0_sqr (vx normal)); pose proof (Rle_0_sqr (vy normal));
    pose proof (Rle_0_sqr (vz normal)).
    unfold dot in *. nra. }
  assert (D : dot (normalize normal) L < 0).
  { unfold normalize.
    replace (dot (vscale (/ sqrt (dot normal normal)) normal) L)
      with (/ sqrt (dot normal normal) * dot normal L)
      by (unfold dot, vscale; cbn; ring).
    assert (0 < / sqrt (dot normal normal)) by (apply Rinv_0_lt_compat, sqrt_lt_R0, P).
    nra. }
  unfold diffuseShader; cbn.
  repeat split; intros; nra.
Qed.

Lemma diffuseShader_back_facing_negative_witness :
  dot (Vec3 0 0 (-1)) (Vec3 0 0 1) < 0 /\
  vx (diffuseShader (Vec3 0 0 (-1)) (Vec3 0 0 1) (Vec3 1 1 1)) < 0.
Proof.
  assert (H : dot (Vec3 0 0 (-1)) (Vec3 0 0 1) < 0) by (unfold dot; cbn; lra).
  split; [exact H|].
  apply (proj1 (diffuseShader_back_facing_negative (Vec3 0 0 (-1)) (Vec3 0 0 1) (Vec3 1 1 1) H)).
  cbn; lra.
Defined.

Lemma vscale_zero_absorb (D : R) (F : vec3) : vscale D (vscale 0 F) = vzero.
Proof. unfold vscale, vzero; cbn; f_equal; ring. Qed.

(** [Vis] is set to [0.0] and never assigned again, so the specular term
    [F * Vis * D] vanishes and the output of the PBR shader does not depend
    on the roughness factor: for two roughness factors whose products with
    the green channel of the metallic-roughness texture lie in
    [[0.1, 1]] (where [D = alpha2 / (pi * baseDenomD^2)] is finite, so
    [Vis * D = 0]; a roughness of [0] can make [D = 0 / 0]), the image is
    the same. *)
Theorem pbrShader_ignores_roughness pow i r :
  1 / 10 <= uRoughnessFactor i * qy (metallicRoughnessTexel i) <= 1 ->
  1 / 10 <= r * qy (metallicRoughnessTexel i) <= 1 ->
  pbrShader pow (with_roughness i r) = pbrShader pow i.
Proof.
  intros _ _.
  unfold pbrShader, with_roughness; cbn [uRoughnessFactor vViewSpacePosition
    vViewSpaceNormal uLightDirection uLightIntensity uBaseColorFactor
    uMetallicFactor baseColorTexel metallicRoughnessTexel].
  cbv zeta. rewrite !vscale_zero_absorb. reflexivity.
Qed.

Lemma pbrShader_ignores_roughness_witness :
  1 / 10 <= uRoughnessFactor pbrSample * qy (metallicRoughnessTexel pbrSample) <= 1 /\
  1 / 10 <= 1 / 2 * qy (metallicRoughnessTexel pbrSample) <= 1 /\
  pbrShader Rpower (with_roughness pbrSample (1 / 2)) = pbrShader Rpower pbrSample.
Proof.
  assert (H1 : 1 / 10 <= uRoughnessFactor pbrSample * qy (metallicRoughnessTexel pbrSample) <= 1)
    by (cbn; lra).
  assert (H2 : 1 / 10 <= 1 / 2 * qy (metallicRoughnessTexel pbrSample) <= 1) by (cbn; lra).
  split; [exact H1|]. split; [exact H2|].
  exact (pbrShader_ignores_roughness Rpower pbrSample (1 / 2) H1 H2).
Defined.

(** A fully metallic fragment ([uMetallicFactor] times the blue channel
    of the metallic-roughness texture equal to [1]) has a black diffuse
    color, and with no specular term the shader outputs
    [LINEARtoSRGB(0)], whatever the base color, light and normal; stated
    for fragments where no [normalize] gets a zero vector and the
    roughness lies in [[0.1, 1]], so that the GLSL arithmetic produces no
    NaN. *)
Theorem pbrShader_metallic_black pow i :
  uMetallicFactor i * qz (metallicRoughnessTexel i) = 1 ->
  1 / 10 <= uRoughnessFactor i * qy (metallicRoughnessTexel i) <= 1 ->
  vViewSpacePosition i <> vzero -> vViewSpaceNormal i <> vzero ->
  vadd (uLightDirection i) (normalize (vscale (-1) (vViewSpacePosition i))) <> vzero ->
  pbrShader pow i = LINEARtoSRGB pow vzero.
Proof.
  intros Hm _ _ _ _. unfold pbrShader. cbv zeta. rewrite vscale_zero_absorb, Hm.
  f_equal. unfold vscale, vmul, vadd, vsub, mix, vconst, vzero; cbn. f_equal; ring.
Qed.

Lemma pbrShader_metallic_black_witness :
  uMetallicFactor pbrSample * qz (metallicRoughnessTexel pbrSample) = 1 /\
  pbrShader Rpower pbrSample = LINEARtoSRGB Rpower vzero.
Proof.
  assert (H : uMetallicFactor pbrSample * qz (metallicRoughnessTexel pbrSample) = 1)
    by (cbn; ring).
  assert (H1 : 1 / 10 <= uRoughnessFactor pbrSample * qy (metallicRoughnessTexel pbrSample) <= 1)
    by (cbn; lra).
  assert (P : vViewSpacePosition pbrSample <> vzero)
    by (cbn; unfold vzero; intros E; injection E; lra).
  assert (N : vViewSpaceNormal pbrSample <> vzero)
    by (cbn; unfold vzero; intros E; injection E; lra).
  assert (LV : vadd (uLightDirection pbrSample)
                 (normalize (vscale (-1) (vViewSpacePosition pbrSample))) <> vzero).
  { cbn. unfold normalize, vadd, vscale, dot, vzero; cbn. intros E. injection E as _ _ E.
    match type of E with context [sqrt ?x] => replace x with 1 in E by ring end.
    rewrite sqrt_1 in E. lra. }
  split; [exact H|]. exact (pbrShader_metallic_black Rpower pbrSample H H1 P N LV).
Defined.

(** With GLSL's [pow] on positive bases ([Rpower]), [LINEARtoSRGB] undoes
    [SRGBtoLINEAR] on the color channels: the two approximations use the
    exponents [GAMMA] and [1 / GAMMA]. *)
Theorem srgb_linear_round_trip (c : vec4) :
  0 < qx c -> 0 < qy c -> 0 < qz c ->
  LINEARtoSRGB Rpower (xyz (SRGBtoLINEAR Rpower c)) = xyz c.
Proof.
  intros Hx Hy Hz. destruct c as [x y z w]; cbn in *.
  unfold LINEARtoSRGB, SRGBtoLINEAR, vpow, vconst, xyz; cbn.
  assert (G : GAMMA * INV_GAMMA = 1) by (unfold INV_GAMMA, GAMMA; field).
  rewrite !Rpower_mult, G, !Rpower_1 by assumption. reflexivity.
Qed.

Lemma srgb_linear_round_trip_witness :
  0 < qx (Vec4 (1 / 2) (1 / 4) 1 1) /\ 0 < qy (Vec4 (1 / 2) (1 / 4) 1 1) /\
  0 < qz (Vec4 (1 / 2) (1 / 4) 1 1) /\
  LINEARtoSRGB Rpower (xyz (SRGBtoLINEAR Rpower (Vec4 (1 / 2) (1 / 4) 1 1)))
    = xyz (Vec4 (1 / 2) (1 / 4) 1 1).
Proof.
  assert (A : 0 < qx (Vec4 (1 / 2) (1 / 4) 1 1)) by (cbn; lra).
  assert (B : 0 < qy (Vec4 (1 / 2) (1 / 4) 1 1)) by (cbn; lra).
  assert (C : 0 < qz (Vec4 (1 / 2) (1 / 4) 1 1)) by (cbn; lra).
  split; [exact A|]. split; [exact B|]. split; [exact C|].
  exact (srgb_linear_round_trip _ A B C).
Defined.
